(** * API gateway core: health registry, load balancer, rate limiter, cache

    A shallow embedding of the gateway's in-memory components
    ([src/healthChecker.js], [src/loadBalancer.js], [src/rateLimiter.js],
    [src/cache.js]) and the properties established about them.

    Conventions of the embedding.
    - The module-level registries of the JavaScript files (plain objects and
      [Map]s that live for the whole process) are finite maps that every
      operation takes and returns.
    - [Date.now()] and [new Date()] are a clock reading passed as an
      argument, in milliseconds.
    - Counters, timestamps and weights are integers ([Z], [nat]); they
      stay far below 2^53, where JavaScript numbers are exact. Where the code
      multiplies by [Math.random()] the arithmetic is that of IEEE 754
      doubles, with its rounding, as specified by [SpecFloat].
    - Keys of the plain-object registries of the health checker, the load
      balancer, the rate limiter and the router are endpoint URLs, route
      paths and ["ip:..."]/["user:..."] subjects; none of them is the name
      of a member of [Object.prototype], so a missing key reads as
      [undefined]. The metrics objects are keyed by a request header, and
      there the inherited members are modelled.
    - Strings are sequences of characters compared position by position. *)

From Stdlib Require Import ZArith List String Ascii Lia.
From Corelib Require Import Floats.SpecFloat.
From stdpp Require Import gmap strings list fin_maps.

Local Open Scope string_scope.
Local Open Scope list_scope.
Local Open Scope Z_scope.

(** ** Health registry ([src/healthChecker.js]) *)

Module HealthChecker.

(** One entry of [serviceHealth]. [null] dates are [None]. *)
Record health := Health {
  healthy : bool;
  lastChecked : option Z;
  consecutiveFailures : Z;
  lastFailureTime : option Z
}.

(** The object literal written whenever a record is created. *)
Definition fresh : health :=
  {| healthy := true; lastChecked := None;
     consecutiveFailures := 0; lastFailureTime := None |}.

(** [if (!serviceHealth[service]) serviceHealth[service] = {...}] *)
Definition ensure (service : string) (sh : gmap string health)
  : gmap string health :=
  match sh !! service with
  | Some _ => sh
  | None => <[service := fresh]> sh
  end.

(** The body of [updateServiceHealth] after the record has been fetched:
    the mutations applied to [health]. *)
Definition check_record (isHealthy : bool) (now : Z) (h : health) : health :=
  let h1 := {| healthy := healthy h; lastChecked := Some now;
               consecutiveFailures := consecutiveFailures h;
               lastFailureTime := lastFailureTime h |} in
  if isHealthy then
    if negb (healthy h1) then
      {| healthy := true; lastChecked := lastChecked h1;
         consecutiveFailures := 0;
         lastFailureTime := lastFailureTime h1 |}
    else h1
  else
    let n := consecutiveFailures h1 + 1 in
    {| healthy := if 3 <=? n then false else healthy h1;
       lastChecked := lastChecked h1;
       consecutiveFailures := n;
       lastFailureTime := Some now |}.

Definition updateServiceHealth (service : string) (isHealthy : bool)
    (now : Z) (sh : gmap string health) : gmap string health :=
  let sh1 := ensure service sh in
  match sh1 !! service with
  | Some h => <[service := check_record isHealthy now h]> sh1
  | None => sh1
  end.

(** [allServices.filter(s => health && health.healthy)]; the [path]
    argument is unused by the source as well. *)
Definition getHealthyServices (path : string) (allServices : list string)
    (sh : gmap string health) : list string :=
  List.filter
    (fun service =>
       match sh !! service with
       | Some h => healthy h
       | None => false
       end)
    allServices.

Definition setServiceHealth (service : string) (h : bool) (now : Z)
    (sh : gmap string health) : gmap string health :=
  let sh1 := ensure service sh in
  match sh1 !! service with
  | Some r =>
      <[service := {| healthy := h; lastChecked := Some now;
                      consecutiveFailures := consecutiveFailures r;
                      lastFailureTime := lastFailureTime r |}]> sh1
  | None => sh1
  end.

(** The synchronous part of [initHealthChecker]: every service of every
    route gets a fresh record, overwriting what was there. [routes] is
    [Object.entries] of the route table. *)
Definition initHealthChecker (routes : list (string * list string))
    (sh : gmap string health) : gmap string health :=
  fold_left
    (fun acc entry =>
       fold_left (fun acc' service => <[service := fresh]> acc')
                 (snd entry) acc)
    routes sh.

(** A probe history for one service: the results handed to
    [updateServiceHealth], each with the time it was applied. *)
Fixpoint run_checks (service : string) (results : list (bool * Z))
    (sh : gmap string health) : gmap string health :=
  match results with
  | [] => sh
  | (ok, now) :: rest =>
      run_checks service rest (updateServiceHealth service ok now sh)
  end.

Definition flag (service : string) (sh : gmap string health) : option bool :=
  healthy <$> sh !! service.

Definition failures (service : string) (sh : gmap string health) : option Z :=
  consecutiveFailures <$> sh !! service.

(** Records reached from a fresh one by check results alone: a healthy
    record has fewer than three counted failures, an unhealthy one at
    least three. *)
Definition counted (h : health) : Prop :=
  0 ≤ consecutiveFailures h ∧
  (if healthy h then consecutiveFailures h < 3 else 3 ≤ consecutiveFailures h).

(** Endpoints used in the examples. *)
Definition backend : string := "http://localhost:3001".
Definition newcomer : string := "http://localhost:3009".

(** What [axios.get] yields for a probe: a response with its status, or a
    network error or timeout. *)
Inductive probe :=
| Responded (status : Z)
| NoResponse.

(** [checkServiceHealth]: [validateStatus] lets statuses from 200 to 499
    through, any other status makes [axios] throw, and the [catch] answers
    [false]. *)
Definition checkServiceHealth (r : probe) : bool :=
  match r with
  | Responded status =>
      if (200 <=? status) && (status <? 500)
      then (200 <=? status) && (status <? 300)
      else false
  | NoResponse => false
  end.

(** The probes [performHealthChecks] starts, in the order it pushes them:
    one for every service of every route. *)
Definition scheduled (routes : list (string * list string)) : list string :=
  mjoin routes.*2.

(** One round of [performHealthChecks]: each probe, when it completes,
    hands its result to [updateServiceHealth]. [completions] lists the
    probes in the order they complete, each with its service, what came
    back, and the time. *)
Definition performHealthChecks (completions : list (string * probe * Z))
    (sh : gmap string health) : gmap string health :=
  fold_left
    (fun acc c =>
       updateServiceHealth (fst (fst c)) (checkServiceHealth (snd (fst c)))
         (snd c) acc)
    completions sh.

(** One element of the array built by [getHealthStatus]. *)
Record status_entry := StatusEntry {
  entry_service : string;
  entry_healthy : bool;
  entry_lastChecked : option Z;
  entry_consecutiveFailures : Z;
  entry_lastFailureTime : option Z
}.

(** [Object.entries(serviceHealth).map(...)], in the order in which the map
    enumerates its entries. *)
Definition getHealthStatus (sh : gmap string health) : list status_entry :=
  (fun e : string * health =>
     {| entry_service := fst e;
        entry_healthy := healthy (snd e);
        entry_lastChecked := lastChecked (snd e);
        entry_consecutiveFailures := consecutiveFailures (snd e);
        entry_lastFailureTime := lastFailureTime (snd e) |})
  <$> map_to_list sh.

Record summary := Summary {
  overallHealth : string;
  healthyServices : nat;
  totalServices : nat;
  services : list status_entry
}.

Definition getHealthSummary (sh : gmap string health) : summary :=
  let status := getHealthStatus sh in
  let healthy_count := length (List.filter entry_healthy status) in
  let total := length status in
  {| overallHealth :=
       if (healthy_count =? total)%nat then "healthy"
       else if (0 <? healthy_count)%nat then "degraded" else "down";
     healthyServices := healthy_count;
     totalServices := total;
     services := status |}.

End HealthChecker.

(** ** Load balancer ([src/loadBalancer.js]) *)

Module LoadBalancer.

(** [counters[path]], where a missing entry and [0] are both falsy and
    both lead to the value [0]. The counters are created as [0] and only
    ever incremented, hence natural numbers. *)
Definition counter_of (path : string) (counters : gmap string nat) : nat :=
  default 0%nat (counters !! path).

(** [services[i]] for a computed index; an empty array gives
    [undefined] whatever the index ([c % 0] is [NaN]). *)
Definition getNextTargetRoundRobin (path : string) (services : list string)
    (counters : gmap string nat) : option string * gmap string nat :=
  let c := counter_of path counters in
  let target :=
    match services with
    | [] => None
    | _ => services !! (c mod length services)%nat
    end in
  (target, <[path := S c]> counters).

(** [n] selections in a row over the same list. *)
Fixpoint select_many (n : nat) (path : string) (services : list string)
    (counters : gmap string nat)
  : list (option string) * gmap string nat :=
  match n with
  | O => ([], counters)
  | S n' =>
      let '(t, counters1) := getNextTargetRoundRobin path services counters in
      let '(ts, counters2) := select_many n' path services counters1 in
      (t :: ts, counters2)
  end.

(** [Math.min(...values)]: [None] stands for [Infinity], the result on no
    argument. *)
Definition js_min (values : list Z) : option Z :=
  fold_right
    (fun v acc => match acc with
                  | Some m => Some (Z.min v m)
                  | None => Some v
                  end)
    None values.

(** [Object.values(o)] *)
Definition object_values (o : gmap string Z) : list Z :=
  (map_to_list o).*2.

(** [o[s] === m] where [o[s]] may be [undefined] and [m] may be
    [Infinity]. *)
Definition strict_eq (v m : option Z) : bool :=
  match v, m with
  | Some a, Some b => a =? b
  | _, _ => false
  end.

(** Doubles: 53 bits of precision, exponents below 1024. *)
Definition prec : Z := 53.
Definition emax : Z := 1024.

(** The double of an integer (the integer itself below 2^53). *)
Definition number (z : Z) : spec_float := binary_normalize prec emax z 0 false.

(** [+0] *)
Definition zero : spec_float := S754_zero false.

(** A value of [Math.random()], a double in [0, 1), written as the fraction
    [draw_num / (draw_num + draw_gap + 1)]. *)
Record draw := Draw { draw_num : N; draw_gap : N }.

(** The double a draw stands for: the quotient of the two integers, rounded
    once, which is the fraction itself whenever that is a double. (A
    fraction closer to 1 than any double below 1 stands for 1, which
    [Math.random()] never returns.) *)
Definition Math_random (u : draw) : spec_float :=
  match draw_num u with
  | N0 => zero
  | Npos n =>
      SFdiv prec emax (S754_finite false n 0)
        (S754_finite false (N.succ_pos (draw_num u + draw_gap u)) 0)
  end.

(** [array[Math.floor(x)]] reads position [floor x]; there is no element at
    a negative, infinite or [NaN] index, as there is none at [len]. *)
Definition floor_index (x : spec_float) (len : nat) : nat :=
  match x with
  | S754_zero _ => 0%nat
  | S754_finite false m e => Z.to_nat (Z.shiftl (Z.pos m) e)
  | _ => len
  end.

(** [Math.floor(Math.random() * len)] *)
Definition random_index (u : draw) (len : nat) : nat :=
  floor_index (SFmul prec emax (Math_random u) (number (Z.of_nat len))) len.

(** [services.forEach(s => { activeConnections[path][s] = 0 })] on a new
    object. *)
Definition zeroed (services : list string) : gmap string Z :=
  fold_left (fun o s => <[s := 0]> o) services ∅.

Definition getNextTargetLeastConnections (path : string)
    (services : list string) (u : draw)
    (activeConnections : gmap string (gmap string Z))
  : option string * gmap string (gmap string Z) :=
  let ac1 :=
    match activeConnections !! path with
    | Some _ => activeConnections
    | None => <[path := zeroed services]> activeConnections
    end in
  let conns := default ∅ (ac1 !! path) in
  let minConnections := js_min (object_values conns) in
  let leastLoadedServices :=
    List.filter (fun s => strict_eq (conns !! s) minConnections) services in
  (leastLoadedServices !! random_index u (length leastLoadedServices), ac1).

Definition incrementConnections (path target : string)
    (activeConnections : gmap string (gmap string Z))
  : gmap string (gmap string Z) :=
  let conns := default ∅ (activeConnections !! path) in
  let v := default 0 (conns !! target) in
  <[path := <[target := v + 1]> conns]> activeConnections.

Definition decrementConnections (path target : string)
    (activeConnections : gmap string (gmap string Z))
  : gmap string (gmap string Z) :=
  match activeConnections !! path with
  | Some conns =>
      match conns !! target with
      | Some v => <[path := <[target := v - 1]> conns]> activeConnections
      | None => activeConnections
      end
  | None => activeConnections
  end.

(** [serviceWeights[s] || 1] *)
Definition weight_or_one (serviceWeights : gmap string Z) (s : string) : Z :=
  match serviceWeights !! s with
  | Some w => if w =? 0 then 1 else w
  | None => 1
  end.

(** [ws.reduce((a, b) => a + b, 0)] *)
Definition total_weight (ws : list Z) : spec_float :=
  fold_left (fun a b => SFadd prec emax a (number b)) ws zero.

(** The [for] loop of [getNextTargetWeighted] from position [i] on:
    [random -= w] and the test [random <= 0] for each remaining weight. The
    result is the position at which the loop returns, if it does. *)
Fixpoint weighted_scan (random : spec_float) (ws : list Z) (i : nat)
  : option nat :=
  match ws with
  | [] => None
  | w :: rest =>
      let random := SFsub prec emax random (number w) in
      if SFleb random zero then Some i
      else weighted_scan random rest (S i)
  end.

Definition getNextTargetWeighted (path : string) (services : list string)
    (serviceWeights : gmap string Z) (u : draw)
    (weights : gmap string (list Z))
  : option string * gmap string (list Z) :=
  let weights1 :=
    match weights !! path with
    | Some _ => weights
    | None => <[path := List.map (weight_or_one serviceWeights) services]> weights
    end in
  let ws := default [] (weights1 !! path) in
  let totalWeight := total_weight ws in
  let random := SFmul prec emax (Math_random u) totalWeight in
  (match weighted_scan random ws 0 with
   | Some i => services !! i
   | None => services !! 0%nat
   end,
   weights1).

(** [activeConnections[path][target]], [None] when either is missing. *)
Definition active (path target : string)
    (activeConnections : gmap string (gmap string Z)) : option Z :=
  activeConnections !! path ≫= (fun conns => conns !! target).

(** Endpoints used in the examples. *)
Definition first_backend : string := "http://localhost:3001".
Definition second_backend : string := "http://localhost:3002".

End LoadBalancer.

(** ** Rate limiter ([src/rateLimiter.js]) *)

Module RateLimiter.

(** What the limiter reads of a request: [req.ip], and [req.user.userId]
    when [req.user] is set. *)
Record request := Request { ip : string; userId : option string }.

(** [next()] with the two [X-RateLimit-*] headers, or status 429 with its
    error text. *)
Inductive outcome :=
| Next (limit remaining : Z)
| Status429 (error : string).

(** [req.user && req.user.userId]: the empty string is falsy. *)
Definition authenticated_user (req : request) : option string :=
  match userId req with
  | Some uid => if String.eqb uid "" then None else Some uid
  | None => None
  end.

(** [while (w.length > 0 && w[0] < now - windowMs) w.shift()] *)
Fixpoint shift_stale (now windowMs : Z) (w : list Z) : list Z :=
  match w with
  | [] => []
  | t :: rest =>
      if t <? now - windowMs then shift_stale now windowMs rest else w
  end.

(** The array stored under [key] once
    [if (!slidingWindows[key]) slidingWindows[key] = []] has run. *)
Definition window_of (key : string) (slidingWindows : gmap string (list Z))
  : list Z :=
  default [] (slidingWindows !! key).

(** The middleware returned by [rateLimiter(ipLimit, userLimit, windowMs)].
    [ipWindow] and [userWindow] are the arrays stored in [slidingWindows];
    their keys differ in the first character, so they are two arrays. *)
Definition rateLimiter (ipLimit userLimit windowMs : Z) (req : request)
    (now : Z) (slidingWindows : gmap string (list Z))
  : outcome * gmap string (list Z) :=
  let ipKey := "ip:" +:+ ip req in
  let ipWindow := shift_stale now windowMs (window_of ipKey slidingWindows) in
  let sw1 := <[ipKey := ipWindow]> slidingWindows in
  if ipLimit <=? Z.of_nat (length ipWindow) then
    (Status429 "IP rate limit exceeded", sw1)
  else
    match authenticated_user req with
    | Some uid =>
        let userKey := "user:" +:+ uid in
        let userWindow := shift_stale now windowMs (window_of userKey sw1) in
        let sw2 := <[userKey := userWindow]> sw1 in
        if userLimit <=? Z.of_nat (length userWindow) then
          (Status429 "User rate limit exceeded", sw2)
        else
          let sw3 := <[userKey := userWindow ++ [now]]> sw2 in
          let pushed := ipWindow ++ [now] in
          (Next ipLimit (ipLimit - Z.of_nat (length pushed)),
           <[ipKey := pushed]> sw3)
    | None =>
        let pushed := ipWindow ++ [now] in
        (Next ipLimit (ipLimit - Z.of_nat (length pushed)),
         <[ipKey := pushed]> sw1)
    end.

Definition admitted (o : outcome) : bool :=
  match o with
  | Next _ _ => true
  | Status429 _ => false
  end.

(** The same client calling at the given times, one request after the
    other; the decisions in order, and the final registry. *)
Fixpoint serve (ipLimit userLimit windowMs : Z) (req : request)
    (times : list Z) (slidingWindows : gmap string (list Z))
  : list bool * gmap string (list Z) :=
  match times with
  | [] => ([], slidingWindows)
  | now :: rest =>
      let '(o, sw1) :=
        rateLimiter ipLimit userLimit windowMs req now slidingWindows in
      let '(os, sw2) := serve ipLimit userLimit windowMs req rest sw1 in
      (admitted o :: os, sw2)
  end.

(** Timestamps in the order of their arrival. *)
Fixpoint chronological (w : list Z) : bool :=
  match w with
  | [] => true
  | t :: rest =>
      match rest with
      | [] => true
      | t' :: _ => (t <=? t') && chronological rest
      end
  end.

(** The limit that binds a client whose windows start empty: the IP limit,
    and for an authenticated client the smaller of the two limits. *)
Definition effective_limit (ipLimit userLimit : Z) (req : request) : Z :=
  match authenticated_user req with
  | Some _ => Z.min ipLimit userLimit
  | None => ipLimit
  end.

(** The middleware returned by [slidingWindowLimiter(limit, windowMs)];
    its key is [req.ip] itself. *)
Definition slidingWindowLimiter (limit windowMs : Z) (req : request)
    (now : Z) (slidingWindows : gmap string (list Z))
  : outcome * gmap string (list Z) :=
  let key := ip req in
  let window := shift_stale now windowMs (window_of key slidingWindows) in
  let sw1 := <[key := window]> slidingWindows in
  if limit <=? Z.of_nat (length window) then
    (Status429 "Too many requests", sw1)
  else
    let pushed := window ++ [now] in
    (Next limit (limit - Z.of_nat (length pushed)), <[key := pushed]> sw1).

(** The middleware returned by [userBasedLimiter(limit, windowMs)]. *)
Definition userBasedLimiter (limit windowMs : Z) (req : request)
    (now : Z) (slidingWindows : gmap string (list Z))
  : outcome * gmap string (list Z) :=
  match authenticated_user req with
  | None => slidingWindowLimiter limit windowMs req now slidingWindows
  | Some uid =>
      let key := "user:" +:+ uid in
      let window := shift_stale now windowMs (window_of key slidingWindows) in
      let sw1 := <[key := window]> slidingWindows in
      if limit <=? Z.of_nat (length window) then
        (Status429 "User rate limit exceeded", sw1)
      else
        let pushed := window ++ [now] in
        (Next limit (limit - Z.of_nat (length pushed)), <[key := pushed]> sw1)
  end.

(** The request times that were admitted, from the times and the decisions
    of [serve]. *)
Fixpoint admitted_times (times : list Z) (decisions : list bool) : list Z :=
  match times, decisions with
  | t :: ts, d :: ds =>
      if d then t :: admitted_times ts ds else admitted_times ts ds
  | _, _ => []
  end.

(** How many of the timestamps [stamps] fall in the window of length
    [windowMs] that ends at [t]. *)
Definition count_in_window (windowMs t : Z) (stamps : list Z) : nat :=
  length (List.filter (fun a => (t - windowMs <=? a) && (a <=? t)) stamps).

End RateLimiter.

(** ** Cache ([src/cache.js]) *)

Module Cache.

(** A parsed JSON payload. Only whether a number is zero matters below,
    so numbers are integers. *)
#[local] Unset Elimination Schemes.
Inductive json :=
| JNull
| JBool (b : bool)
| JNumber (z : Z)
| JString (s : string)
| JArray (items : list json)
| JObject (fields : list (string * json)).
#[local] Set Elimination Schemes.

(** JavaScript truthiness, as tested by [if (cachedData)]. *)
Definition truthy (v : json) : bool :=
  match v with
  | JNull => false
  | JBool b => b
  | JNumber z => negb (z =? 0)
  | JString s => negb (String.eqb s "")
  | JArray _ => true
  | JObject _ => true
  end.

Record metadata := Metadata { cachedAt : Z; expiresAt : Z }.

(** The two module-level [Map]s. *)
Record store := Store {
  cache : gmap string json;
  cacheMetadata : gmap string metadata
}.

Definition empty_store : store :=
  {| cache := ∅; cacheMetadata := ∅ |}.

Record request := Request {
  method : string;
  originalUrl : string;
  path : string
}.

Definition CACHEABLE_ROUTES : list string :=
  ["/products"; "/stats"; "/users"].

(** The object literal, as its keys in order with their values. *)
Definition CACHE_DURATIONS : list (string * Z) :=
  [("/products", 5 * 60 * 1000);
   ("/stats", 10 * 60 * 1000);
   ("/users", 2 * 60 * 1000)].

(** [s.startsWith(p)] *)
Definition startsWith (s p : string) : bool := String.prefix p s.

(** [s.includes(p)] *)
Fixpoint includes (s p : string) : bool :=
  startsWith s p ||
  match s with
  | EmptyString => false
  | String _ rest => includes rest p
  end.

(** [s.split(sep)] for a one-character separator. *)
Fixpoint split (sep : ascii) (s : string) : list string :=
  match s with
  | EmptyString => [EmptyString]
  | String c rest =>
      if Ascii.eqb c sep then EmptyString :: split sep rest
      else
        match split sep rest with
        | piece :: pieces => String c piece :: pieces
        | [] => [String c EmptyString]
        end
  end.

(** What [cacheMiddleware] does with the response: either it answers from
    the cache ([X-Cache-Hit: true]), or it calls [next()], with [res.send]
    wrapped or not. *)
Inductive handled :=
| Served (data : json)
| Forwarded (wrapped : bool).

Definition cacheMiddleware (req : request) (now : Z) (st : store)
  : handled * store :=
  if negb (String.eqb (method req) "GET") then (Forwarded false, st)
  else if negb (existsb (fun route => startsWith (originalUrl req) route)
                        CACHEABLE_ROUTES)
  then (Forwarded false, st)
  else
    let cacheKey := originalUrl req in
    match cache st !! cacheKey with
    | Some cachedData =>
        if truthy cachedData then
          let evicted :=
            {| cache := delete cacheKey (cache st);
               cacheMetadata := delete cacheKey (cacheMetadata st) |} in
          match cacheMetadata st !! cacheKey with
          | Some md =>
              if now <? expiresAt md then (Served cachedData, st)
              else (Forwarded true, evicted)
          | None => (Forwarded true, evicted)
          end
        else (Forwarded true, st)
    | None => (Forwarded true, st)
    end.

(** [CACHE_DURATIONS[Object.keys(CACHE_DURATIONS).find(...)] || 5 * 60 * 1000]
    over a table of durations. *)
Definition duration_in (table : list (string * Z)) (url : string) : Z :=
  match List.find (fun entry => startsWith url (fst entry)) table with
  | Some (_, d) => if d =? 0 then 5 * 60 * 1000 else d
  | None => 5 * 60 * 1000
  end.

Definition cacheDuration (url : string) : Z :=
  duration_in CACHE_DURATIONS url.

(** The wrapper installed on [res.send], up to the call of the original
    [send]. [jsonType] is [res.get('content-type')?.includes('application/json')];
    [parsed] is the value of
    [typeof data === 'string' ? JSON.parse(data) : data], or [None] when
    [JSON.parse] throws. [cachedNow] and [expiryNow] are the two readings
    of [Date.now()]. The result is the [X-Cache-Hit] header it sets, if
    any, and the registry. *)
Definition send_wrapper (req : request) (jsonType : bool)
    (parsed : option json) (cachedNow expiryNow : Z) (st : store)
  : option string * store :=
  if jsonType then
    match parsed with
    | Some jsonData =>
        let cacheKey := originalUrl req in
        (Some "false",
         {| cache := <[cacheKey := jsonData]> (cache st);
            cacheMetadata :=
              <[cacheKey := {| cachedAt := cachedNow;
                               expiresAt :=
                                 expiryNow + cacheDuration (originalUrl req) |}]>
                (cacheMetadata st) |})
    | None => (None, st)
    end
  else (None, st).

(** The [for (const [key] of cache.entries())] loop over the keys it
    visits. *)
Definition invalidate_loop (pattern : string) (keys : list string)
    (st : store) : store :=
  fold_left
    (fun acc key =>
       if includes key pattern then
         {| cache := delete key (cache acc);
            cacheMetadata := delete key (cacheMetadata acc) |}
       else acc)
    keys st.

(** [pattern] is [None] for [undefined]; the empty string is falsy too. *)
Definition invalidateCache (pattern : option string) (st : store) : store :=
  match pattern with
  | None => empty_store
  | Some p =>
      if String.eqb p "" then empty_store
      else invalidate_loop p (map_to_list (cache st)).*1 st
  end.

(** [req.path.split('/').slice(0, 2).join('/')] *)
Definition baseRoute (p : string) : string :=
  String.concat "/" (take 2 (split "/"%char p)).

Definition cacheInvalidationMiddleware (req : request) (st : store)
  : store :=
  if existsb (String.eqb (method req)) ["POST"; "PUT"; "DELETE"; "PATCH"]
  then invalidateCache (Some (baseRoute (path req))) st
  else st.

(** The time to live as the specification words it: the duration of the
    longest configured prefix of the URL, and the default when no
    configured prefix matches. *)
Definition longest_match (table : list (string * Z)) (url : string)
  : option (string * Z) :=
  fold_right
    (fun entry best =>
       if startsWith url (fst entry) then
         match best with
         | Some b =>
             if (String.length (fst b) <? String.length (fst entry))%nat
             then Some entry else best
         | None => Some entry
         end
       else best)
    None table.

Definition longest_prefix_ttl (url : string) : Z :=
  match longest_match CACHE_DURATIONS url with
  | Some (_, d) => d
  | None => 5 * 60 * 1000
  end.

(** A path segment: no ["/"] in it. *)
Fixpoint slash_free (s : string) : bool :=
  match s with
  | EmptyString => true
  | String c rest => negb (Ascii.eqb c "/") && slash_free rest
  end.

(** [clearCache] *)
Definition clearCache (st : store) : store := empty_store.

(** [CACHEABLE_ROUTES.some(route => req.originalUrl.startsWith(route))] *)
Definition isCacheable (url : string) : bool :=
  existsb (fun route => startsWith url route) CACHEABLE_ROUTES.

(** The two maps hold the same keys. *)
Definition store_consistent (st : store) : Prop :=
  ∀ key, is_Some (cache st !! key) ↔ is_Some (cacheMetadata st !! key).

(** A request used in the examples. *)
Definition products : request :=
  {| method := "GET"; originalUrl := "/products"; path := "/products" |}.

(** The registry after the JSON body [null] was sent for [GET /products]
    at time 0. *)
Definition null_stored : store :=
  (send_wrapper products true (Some JNull) 0 0 empty_store).2.

End Cache.

(** ** Router ([src/router.js]) and its administration ([src/index.js]) *)

Module Router.

(** The [routes] object as its entries in the order of its keys. The keys
    are route paths; an object holds a key once. *)
Definition keys (routes : list (string * list string)) : list string :=
  routes.*1.

(** [routes[path]] *)
Definition route_of (path : string) (routes : list (string * list string))
  : option (list string) :=
  snd <$> List.find (fun e => String.eqb (fst e) path) routes.

(** [Object.keys(routes).find(r => req.url.startsWith(r))] together with
    [routes[matchedPath]]. *)
Definition matchRoute (url : string) (routes : list (string * list string))
  : option (string * list string) :=
  List.find (fun e => Cache.startsWith url (fst e)) routes.

(** What [routeRequest] answers: status 404, status 503 for the matched
    path, or the hand-over to the proxy with the chosen target. *)
Inductive response :=
| Status404
| Status503 (path : string)
| Proxied (path : string) (target : option string).

(** The registries [routeRequest] reads and writes. *)
Record state := State {
  serviceHealth : gmap string HealthChecker.health;
  counters : gmap string nat;
  activeConnections : gmap string (gmap string Z)
}.

(** [routeRequest] up to the call of [proxy.web]. An empty matched key is
    falsy and answers 404 like no match. The key under which a missing
    target would be counted is ["undefined"]. *)
Definition routeRequest (url : string) (routes : list (string * list string))
    (st : state) : response * state :=
  match matchRoute url routes with
  | None => (Status404, st)
  | Some (matchedPath, services) =>
      if String.eqb matchedPath "" then (Status404, st)
      else
        let healthyServices :=
          HealthChecker.getHealthyServices matchedPath services
            (serviceHealth st) in
        match healthyServices with
        | [] => (Status503 matchedPath, st)
        | _ =>
            let '(target, counters1) :=
              LoadBalancer.getNextTargetRoundRobin matchedPath healthyServices
                (counters st) in
            (Proxied matchedPath target,
             {| serviceHealth := serviceHealth st;
                counters := counters1;
                activeConnections :=
                  LoadBalancer.incrementConnections matchedPath
                    (default "undefined" target) (activeConnections st) |})
        end
  end.

(** The same URL requested [n] times in a row. *)
Fixpoint dispatch_many (n : nat) (url : string)
    (routes : list (string * list string)) (st : state)
  : list response * state :=
  match n with
  | O => ([], st)
  | S n' =>
      let '(r, st1) := routeRequest url routes st in
      let '(rs, st2) := dispatch_many n' url routes st1 in
      (r :: rs, st2)
  end.

(** [routes[path] = services]: an existing key keeps its place, a new key
    goes last. *)
Fixpoint updateRoute (path : string) (services : list string)
    (routes : list (string * list string)) : list (string * list string) :=
  match routes with
  | [] => [(path, services)]
  | (p, s) :: rest =>
      if String.eqb p path then (p, services) :: rest
      else (p, s) :: updateRoute path services rest
  end.

(** [delete routes[path]] *)
Definition removeRoute (path : string) (routes : list (string * list string))
  : list (string * list string) :=
  List.filter (fun e => negb (String.eqb (fst e) path)) routes.

(** [getRoutingTable]: path, services and [serviceCount]. *)
Definition getRoutingTable (routes : list (string * list string))
  : list (string * list string * nat) :=
  List.map (fun e => (fst e, snd e, length (snd e))) routes.

(** The handler of [PUT /admin/routes/:path]. [services] is [None] when the
    body's [services] is not an array. The result is the status and the
    routes. *)
Definition put_route (param : string) (services : option (list string))
    (routes : list (string * list string))
  : Z * list (string * list string) :=
  match services with
  | None => (400, routes)
  | Some [] => (400, routes)
  | Some l => (200, updateRoute ("/" +:+ param) l routes)
  end.

(** The handler of [DELETE /admin/routes/:path]. *)
Definition delete_route (param : string)
    (routes : list (string * list string))
  : Z * list (string * list string) :=
  (200, removeRoute ("/" +:+ param) routes).

End Router.

(** ** Authentication ([src/auth.js]) *)

Module Auth.

(** [req.user]: the decoded token, or the object built for an API key. *)
Record user := User {
  userId : option string;
  role : option string;
  apiKey : option string;
  authenticated : bool
}.

(** What the middleware reads of a request: [req.path] and the two
    headers, [None] when a header is absent. *)
Record request := Request {
  path : string;
  authorization : option string;
  xApiKey : option string
}.

(** [next()] with the [req.user] it attached, if any, or a status with its
    error text. *)
Inductive outcome :=
| Next (attached : option user)
| Status (code : Z) (error : string).

(** A header or token as a condition: absent and empty are both falsy. *)
Definition present (v : option string) : option string :=
  match v with
  | Some s => if String.eqb s "" then None else Some s
  | None => None
  end.

Definition isPublic (p : string) : bool :=
  String.eqb p "/health" || String.eqb p "/metrics".

(** What [jwt.verify] returns for a token it accepts: the payload, which
    is an object or, for a token signed over something else (a plain
    string, say), a primitive value. *)
Inductive payload :=
| ObjectPayload (decoded : user)
| PrimitivePayload.

(** [authenticateJWT]. [verify] stands for [jwt.verify(token, JWT_SECRET)]:
    the payload, or [None] when it throws. The assignment
    [req.user.authenticated = true] is inside the [try] as well: on a
    primitive value it throws (the file is an ES module, hence strict), and
    the [catch] answers 403. *)
Definition authenticateJWT (verify : string → option payload) (req : request)
  : outcome :=
  if isPublic (path req) then Next None
  else
    match present (authorization req) with
    | None => Status 401 "No authorization header"
    | Some authHeader =>
        match present (Cache.split " " authHeader !! 1%nat) with
        | None => Status 401 "Invalid token format"
        | Some token =>
            match verify token with
            | Some (ObjectPayload decoded) =>
                Next (Some {| userId := userId decoded;
                              role := role decoded;
                              apiKey := apiKey decoded;
                              authenticated := true |})
            | Some PrimitivePayload => Status 403 "Invalid or expired token"
            | None => Status 403 "Invalid or expired token"
            end
        end
    end.

(** [authenticateAPIKey]; [API_KEYS] is the set of valid keys. *)
Definition authenticateAPIKey (API_KEYS : list string) (req : request)
  : outcome :=
  match present (xApiKey req) with
  | None => Status 401 "No API key provided"
  | Some key =>
      if existsb (String.eqb key) API_KEYS then
        Next (Some {| userId := None; role := Some "api-consumer";
                      apiKey := Some key; authenticated := true |})
      else Status 403 "Invalid API key"
  end.

(** [authenticate] *)
Definition authenticate (verify : string → option payload)
    (API_KEYS : list string) (req : request) : outcome :=
  if isPublic (path req) then Next None
  else
    match present (authorization req) with
    | Some authHeader =>
        if Cache.startsWith authHeader "Bearer "
        then authenticateJWT verify req
        else
          match present (xApiKey req) with
          | Some _ => authenticateAPIKey API_KEYS req
          | None => Status 401 "Authentication required"
          end
    | None =>
        match present (xApiKey req) with
        | Some _ => authenticateAPIKey API_KEYS req
        | None => Status 401 "Authentication required"
        end
    end.

(** The middleware returned by [authorize(...allowedRoles)], applied to
    [req.user]; it attaches nothing. *)
Definition authorize (allowedRoles : list string) (u : option user)
  : outcome :=
  match u with
  | None => Status 401 "User not authenticated"
  | Some usr =>
      let userRole := default "user" (present (role usr)) in
      if existsb (String.eqb userRole) allowedRoles then Next None
      else Status 403 "Insufficient permissions"
  end.

(** No occurrence of the character [c]. *)
Fixpoint free_of (c : ascii) (s : string) : bool :=
  match s with
  | EmptyString => true
  | String x rest => negb (Ascii.eqb x c) && free_of c rest
  end.

End Auth.

(** * Request metrics (src/logger.js)

    The module-level [metrics] object is passed and returned. Counters are
    natural numbers, latencies (differences of two [Date.now()] readings)
    integers. [min] starts at [Infinity], which is [None] here. The [avg]
    field of a per-service record is always written as [total / count] of
    the same record and is left out.

    [requestsByService], [requestsByPath] and [latencyByService] are plain
    objects whose keys come from the request, so a key may be the name of a
    member every object inherits from [Object.prototype]. Reading such a
    key finds the inherited member, a function or (for [__proto__]) the
    prototype itself, which is truthy. The maps below hold the own
    properties of each object. *)

Module Logger.

(** A latency accumulator: [{min, max, total, count}]. *)
Record stats := Stats {
  min : option Z;
  max : Z;
  total : Z;
  count : nat
}.

(** The value under a key of a counter object: a number, or the text of
    the inherited member followed by [ones] characters ["1"], which is what
    [member + 1] and then [text + 1] give. *)
Inductive tallied :=
| Count (n : nat)
| Text (ones : nat).

Record metrics := Metrics {
  totalRequests : nat;
  totalErrors : nat;
  requestsByService : gmap string tallied;
  requestsByPath : gmap string tallied;
  requestsByStatus : gmap Z nat;
  latencyByService : gmap string stats;
  latencyStats : stats
}.

(** What the [finish] handler reads: the [x-forwarded-to] request header,
    [req.path], [res.statusCode], and [Date.now() - startTime]. *)
Record finished := Finished {
  forwardedTo : option string;
  path : string;
  status : Z;
  latency : Z
}.

(** [{min: Infinity, max: 0, total: 0, count: 0}] *)
Definition no_stats : stats :=
  {| min := None; max := 0; total := 0; count := 0 |}.

(** [req.headers['x-forwarded-to'] || 'unknown'] *)
Definition service_of (e : finished) : string :=
  default "unknown" (Auth.present (forwardedTo e)).

(** The members of [Object.prototype]. The fields the handler may write
    onto one of them ([min], [max], [total], [count], [avg]) all get the
    value [NaN], which is falsy, so these five names keep reading as
    missing keys. *)
Definition PROTOTYPE_MEMBERS : list string :=
  ["constructor"; "__proto__"; "hasOwnProperty"; "isPrototypeOf";
   "propertyIsEnumerable"; "toLocaleString"; "toString"; "valueOf";
   "__defineGetter__"; "__defineSetter__"; "__lookupGetter__";
   "__lookupSetter__"].

Definition inherited (k : string) : bool :=
  existsb (String.eqb k) PROTOTYPE_MEMBERS.

(** [obj[k] = (obj[k] || 0) + 1] on a plain object. For a key the object
    only inherits, the sum is a text; assigning it creates an own property,
    except under [__proto__], whose setter ignores a text. *)
Definition bump (k : string) (obj : gmap string tallied)
  : gmap string tallied :=
  match obj !! k with
  | Some (Count n) => <[k := Count (n + 1)]> obj
  | Some (Text ones) => <[k := Text (ones + 1)]> obj
  | None =>
      if inherited k then
        if String.eqb k "__proto__" then obj else <[k := Text 1]> obj
      else <[k := Count 1]> obj
  end.

(** The same statement for [requestsByStatus], whose keys are the decimal
    numerals of status codes. *)
Definition bump_status (k : Z) (obj : gmap Z nat) : gmap Z nat :=
  <[k := (default 0 (obj !! k) + 1)%nat]> obj.

(** The four updates of an accumulator with one latency. *)
Definition track (l : Z) (s : stats) : stats :=
  {| min := Some (match min s with Some m => Z.min m l | None => l end);
     max := Z.max (max s) l;
     total := total s + l;
     count := S (count s) |}.

(** The update of [latencyByService]. For a key the object only inherits,
    [!metrics.latencyByService[service]] is false: no accumulator is
    created, and the fields are written onto the inherited member, which
    is no part of [metrics]. *)
Definition track_service (service : string) (l : Z)
    (obj : gmap string stats) : gmap string stats :=
  match obj !! service with
  | Some s => <[service := track l s]> obj
  | None =>
      if inherited service then obj
      else <[service := track l no_stats]> obj
  end.

(** The [finish] handler installed by [metricsMiddleware], for one
    finished response. *)
Definition metricsMiddleware (e : finished) (m : metrics) : metrics :=
  let service := service_of e in
  {| totalRequests := S (totalRequests m);
     totalErrors :=
       if 400 <=? status e then S (totalErrors m) else totalErrors m;
     requestsByService := bump service (requestsByService m);
     requestsByPath := bump (path e) (requestsByPath m);
     requestsByStatus := bump_status (status e) (requestsByStatus m);
     latencyByService :=
       track_service service (latency e) (latencyByService m);
     latencyStats := track (latency e) (latencyStats m) |}.

(** The state [resetMetrics] writes, which is also the initial one. *)
Definition resetMetrics : metrics :=
  {| totalRequests := 0; totalErrors := 0;
     requestsByService := ∅; requestsByPath := ∅; requestsByStatus := ∅;
     latencyByService := ∅; latencyStats := no_stats |}.

(** Responses finishing one after the other. *)
Definition finish_all (es : list finished) (m : metrics) : metrics :=
  fold_left (fun m e => metricsMiddleware e m) es m.

(** The responses whose [key] is [k], and the latencies of the responses
    handled for [service]. *)
Definition responses_with `{EqDecision K} (key : finished → K) (k : K)
    (es : list finished) : list finished :=
  List.filter (fun e => bool_decide (key e = k)) es.

Definition latencies_of (service : string) (es : list finished) : list Z :=
  map latency (responses_with service_of service es).

Definition track_all (ls : list Z) (s : stats) : stats :=
  fold_left (fun s l => track l s) ls s.

Definition sum (ls : list Z) : Z := fold_right Z.add 0 ls.

(** The own property of a counter object under the key [k] after [n]
    responses with that key: none before the first; then the number [n],
    or for an inherited name the member's text with [n] characters ["1"],
    and never anything under [__proto__]. *)
Definition tally (k : string) (n : nat) : option tallied :=
  match n with
  | O => None
  | S _ =>
      if inherited k then
        if String.eqb k "__proto__" then None else Some (Text n)
      else Some (Count n)
  end.

Definition tally_status (n : nat) : option nat :=
  match n with
  | O => None
  | S _ => Some n
  end.

(** An accumulator describes the latencies [ls]: their number and sum, a
    maximum that started at 0, and a minimum that is [Infinity] exactly
    when there is none. *)
Definition summarises (ls : list Z) (s : stats) : Prop :=
  count s = length ls ∧
  total s = sum ls ∧
  (∀ l, l ∈ ls → l ≤ max s) ∧
  0 ≤ max s ∧
  (max s = 0 ∨ max s ∈ ls) ∧
  match min s with
  | None => ls = []
  | Some lo => lo ∈ ls ∧ ∀ l, l ∈ ls → lo ≤ l
  end.

End Logger.

(** * Properties *)

(** ** Health registry *)

Section health_registry.
Import HealthChecker.

Implicit Types (sh : gmap string health) (service : string) (h : health).

Lemma ensure_lookup service sh :
  ensure service sh !! service = Some (default fresh (sh !! service)).
Proof.
  unfold ensure. destruct (sh !! service) as [h|] eqn:E; simpl.
  - exact E.
  - apply lookup_insert_eq.
Qed.

Lemma ensure_lookup_ne service other sh :
  other ≠ service → ensure service sh !! other = sh !! other.
Proof.
  intros Hne. unfold ensure. destruct (sh !! service); [done|].
  by rewrite lookup_insert_ne.
Qed.

(** The record of [service] after a check result is the checked version
    of the record it had, or of a fresh one. *)
Lemma updateServiceHealth_lookup service ok now sh :
  updateServiceHealth service ok now sh !! service
  = Some (check_record ok now (default fresh (sh !! service))).
Proof.
  unfold updateServiceHealth. rewrite ensure_lookup. apply lookup_insert_eq.
Qed.

Lemma updateServiceHealth_lookup_ne service other ok now sh :
  other ≠ service →
  updateServiceHealth service ok now sh !! other = sh !! other.
Proof.
  intros Hne. unfold updateServiceHealth. rewrite ensure_lookup.
  rewrite lookup_insert_ne by done. by apply ensure_lookup_ne.
Qed.

Lemma setServiceHealth_lookup service b now sh :
  setServiceHealth service b now sh !! service
  = Some {| healthy := b; lastChecked := Some now;
            consecutiveFailures :=
              consecutiveFailures (default fresh (sh !! service));
            lastFailureTime :=
              lastFailureTime (default fresh (sh !! service)) |}.
Proof.
  unfold setServiceHealth. rewrite ensure_lookup. apply lookup_insert_eq.
Qed.

Lemma setServiceHealth_lookup_ne service other b now sh :
  other ≠ service →
  setServiceHealth service b now sh !! other = sh !! other.
Proof.
  intros Hne. unfold setServiceHealth. rewrite ensure_lookup.
  rewrite lookup_insert_ne by done. by apply ensure_lookup_ne.
Qed.

(** Membership in the filtered list. *)
Lemma elem_of_getHealthyServices path services sh service :
  service ∈ getHealthyServices path services sh
  ↔ service ∈ services ∧ flag service sh = Some true.
Proof.
  unfold getHealthyServices, flag.
  rewrite !list_elem_of_In, filter_In.
  destruct (sh !! service) as [h|]; simpl; [|intuition congruence].
  destruct (healthy h); intuition congruence.
Qed.

(** A successful check always leaves the flag set. *)
Lemma check_record_success_healthy now h :
  healthy (check_record true now h) = true.
Proof. unfold check_record. simpl. by destruct (healthy h). Qed.

(** A successful check on a record still marked healthy leaves the
    failure counter as it is. *)
Lemma check_record_success_keeps_count now h :
  healthy h = true →
  consecutiveFailures (check_record true now h) = consecutiveFailures h.
Proof. unfold check_record. simpl. by intros ->. Qed.

Lemma check_record_failure now h :
  consecutiveFailures (check_record false now h) = consecutiveFailures h + 1
  ∧ healthy (check_record false now h)
    = (if 3 <=? consecutiveFailures h + 1 then false else healthy h).
Proof. done. Qed.

Lemma counted_fresh : counted fresh.
Proof. unfold counted. simpl. lia. Qed.

Lemma counted_check_record ok now h :
  counted h → counted (check_record ok now h).
Proof.
  unfold counted, check_record. destruct ok, h as [[] ? n ?]; simpl;
    try destruct (3 <=? n + 1) eqn:E; simpl; lia.
Qed.

(** On such records the flag is cleared exactly by the failed check that
    makes the counter 3. *)
Lemma flag_cleared_at_threshold ok now h :
  counted h → healthy h = true → healthy (check_record ok now h) = false →
  ok = false ∧ consecutiveFailures (check_record ok now h) = 3.
Proof.
  unfold counted. destruct ok, h as [[] ? n ?]; simpl; try done.
  destruct (3 <=? n + 1) eqn:E; [|done]. lia.
Qed.

(** Three failed checks in a row clear the flag, whatever came before. *)
Lemma three_failures_unhealthy t1 t2 t3 h :
  0 ≤ consecutiveFailures h →
  healthy (check_record false t3 (check_record false t2
             (check_record false t1 h))) = false.
Proof.
  intros Hn. unfold check_record. simpl.
  destruct (3 <=? consecutiveFailures h + 1 + 1 + 1) eqn:E; [done|lia].
Qed.

(** After three failed probes in a row the filter drops the endpoint, and
    one successful probe brings it back. *)
Lemma excluded_after_three_failures_then_included
    path services service t1 t2 t3 t4 sh :
  0 ≤ consecutiveFailures (default fresh (sh !! service)) →
  service ∈ services →
  let down := run_checks service [(false, t1); (false, t2); (false, t3)] sh in
  (service ∉ getHealthyServices path services down) ∧
  (service ∈ getHealthyServices path services
               (updateServiceHealth service true t4 down)).
Proof.
  intros Hn Hin down. subst down. cbn [run_checks].
  rewrite !elem_of_getHealthyServices. unfold flag.
  repeat (rewrite updateServiceHealth_lookup; cbn [from_option id]).
  cbn [fmap option_fmap option_map].
  rewrite check_record_success_healthy.
  rewrite (three_failures_unhealthy t1 t2 t3 _ Hn).
  split; [intros [_ ?]; congruence | done].
Qed.

(** C1: the flag is meant to go from true to false only after three
    consecutive failures. On the history fail, fail, success, fail of a
    new endpoint the endpoint is still healthy after the success, and the
    single failure that follows clears the flag, brings the counter to 3
    and takes the endpoint out of the filtered list. *)
Theorem flag_cleared_by_failure_after_success :
  let before :=
    run_checks backend [(false, 10); (false, 20); (true, 30)] ∅ in
  let after := updateServiceHealth backend false 40 before in
  flag backend before = Some true ∧
  flag backend after = Some false ∧
  failures backend after = Some 3 ∧
  getHealthyServices "/users" [backend] after = [].
Proof. vm_compute. done. Qed.

(** C2: a successful check is meant to reset the failure counter. For a
    new endpoint with one recorded failure, still marked healthy, a
    successful check leaves the counter at 1. *)
Theorem success_leaves_counter_of_healthy_record :
  let once := updateServiceHealth backend false 10 ∅ in
  flag backend once = Some true ∧
  failures backend once = Some 1 ∧
  failures backend (updateServiceHealth backend true 20 once) = Some 1 ∧
  flag backend (updateServiceHealth backend true 20 once) = Some true.
Proof. vm_compute. done. Qed.

Lemma seed_services_lookup services sh service :
  fold_left (fun acc' x => <[x := fresh]> acc') services sh !! service
  = if bool_decide (service ∈ services) then Some fresh else sh !! service.
Proof.
  revert sh. induction services as [|x rest IH]; intros sh; simpl.
  - done.
  - rewrite IH. destruct (decide (service = x)) as [->|Hne].
    + rewrite lookup_insert_eq, (bool_decide_eq_true_2 (x ∈ x :: rest)).
      * by case_bool_decide.
      * left.
    + rewrite lookup_insert_ne by done.
      assert (service ∈ x :: rest ↔ service ∈ rest) as Hiff
        by (rewrite elem_of_cons; tauto).
      repeat case_bool_decide; try done; tauto.
Qed.

Lemma initHealthChecker_lookup routes sh service :
  initHealthChecker routes sh !! service
  = if bool_decide (service ∈ mjoin routes.*2) then Some fresh
    else sh !! service.
Proof.
  unfold initHealthChecker. revert sh.
  induction routes as [|[p l] rest IH]; intros sh; simpl.
  - done.
  - rewrite IH, seed_services_lookup.
    assert (service ∈ mjoin ((p, l) :: rest).*2
            ↔ service ∈ l ∨ service ∈ mjoin rest.*2) as Hiff
      by (simpl; apply elem_of_app).
    repeat case_bool_decide; try done; tauto.
Qed.

(** C6: an endpoint for which no health record exists is meant to pass
    the filter until its first check (the optimistic default). The filter
    leaves such an endpoint out, also in a registry that start-up has
    filled for the configured routes, whereas a check result for an
    endpoint without a record starts from a healthy record: after one
    failed check of the same endpoint the filter lets it through. *)
Theorem unrecorded_endpoint_left_out :
  (∅ : gmap string health) !! newcomer = None ∧
  ¬ (newcomer ∈ getHealthyServices "/users" [newcomer] ∅) ∧
  getHealthyServices "/users" [backend; newcomer]
    (initHealthChecker [("/users", [backend])] ∅) = [backend] ∧
  getHealthyServices "/users" [newcomer]
    (updateServiceHealth newcomer false 10 ∅) = [newcomer].
Proof.
  split; [done|]. split; [vm_compute; by intros ?%elem_of_nil|].
  split; by vm_compute.
Qed.

(** The filter keeps an endpoint only if it has a record whose flag is
    set; the endpoints of the start-up route table are given a healthy
    record by [initHealthChecker], so they pass the filter before their
    first probe has completed. *)
Lemma filter_needs_a_healthy_record routes sh path services service :
  (sh !! service = None → service ∉ getHealthyServices path services sh) ∧
  (service ∈ mjoin routes.*2 → service ∈ services →
   initHealthChecker routes sh !! service = Some fresh ∧
   (service ∈ getHealthyServices path services (initHealthChecker routes sh))).
Proof.
  split.
  - intros Hnone [_ Hflag]%elem_of_getHealthyServices.
    unfold flag in Hflag. by rewrite Hnone in Hflag.
  - intros Hroute Hin.
    assert (initHealthChecker routes sh !! service = Some fresh) as Hrec.
    { rewrite initHealthChecker_lookup. by rewrite bool_decide_eq_true_2. }
    split; [done|]. apply elem_of_getHealthyServices.
    split; [done|]. unfold flag. by rewrite Hrec.
Qed.

Lemma filter_needs_a_healthy_record_witness :
  (newcomer ∉ getHealthyServices "/users" [backend; newcomer] ∅) ∧
  (backend ∈ getHealthyServices "/users" [backend; newcomer]
               (initHealthChecker [("/users", [backend])] ∅)).
Proof.
  split.
  - apply (proj1 (filter_needs_a_healthy_record
                    [] ∅ "/users" [backend; newcomer] newcomer)).
    reflexivity.
  - apply (proj2 (filter_needs_a_healthy_record
                    [("/users", [backend])] ∅ "/users"
                    [backend; newcomer] backend)).
    + vm_compute. left.
    + left.
Defined.

(** C10: the manual override writes the flag and [lastChecked] and leaves
    [consecutiveFailures] and [lastFailureTime] as they were (those of a
    fresh record when there was none), and touches no other endpoint. When
    the counter already stands at 3 or more, overriding to healthy and
    then recording one failed check clears the flag again and the filter
    drops the endpoint. *)
Theorem manual_override_keeps_failure_count
    sh service (b : bool) (now later : Z) path services :
  let old := default fresh (sh !! service) in
  setServiceHealth service b now sh !! service
  = Some {| healthy := b; lastChecked := Some now;
            consecutiveFailures := consecutiveFailures old;
            lastFailureTime := lastFailureTime old |}
  ∧ (∀ other, other ≠ service →
       setServiceHealth service b now sh !! other = sh !! other)
  ∧ (3 ≤ consecutiveFailures old →
     let overridden := setServiceHealth service true now sh in
     flag service overridden = Some true ∧
     flag service (updateServiceHealth service false later overridden)
     = Some false ∧
     (service ∉ getHealthyServices path services
                  (updateServiceHealth service false later overridden))).
Proof.
  intros old. split; [apply setServiceHealth_lookup|].
  split; [intros other Hne; by apply setServiceHealth_lookup_ne|].
  intros Hcount overridden.
  assert (flag service (updateServiceHealth service false later overridden)
          = Some false) as Hdown.
  { unfold flag, overridden.
    rewrite updateServiceHealth_lookup, setServiceHealth_lookup.
    cbn [from_option id fmap option_fmap option_map]. f_equal.
    unfold check_record. cbn. fold old.
    destruct (3 <=? consecutiveFailures old + 1) eqn:E; [done|lia]. }
  split; [|split; [done|]].
  - unfold flag, overridden. by rewrite setServiceHealth_lookup.
  - intros [_ Hflag]%elem_of_getHealthyServices. congruence.
Qed.

Lemma manual_override_keeps_failure_count_witness :
  let down :=
    run_checks backend [(false, 10); (false, 20); (false, 30)] ∅ in
  failures backend down = Some 3 ∧
  failures backend (setServiceHealth backend true 40 down) = Some 3 ∧
  flag backend (setServiceHealth backend true 40 down) = Some true ∧
  flag backend (updateServiceHealth backend false 50
                  (setServiceHealth backend true 40 down)) = Some false.
Proof.
  intros down.
  pose proof (manual_override_keeps_failure_count
                down backend true 40 50 "/users" [backend]) as [Hrec [_ Hre]].
  split; [reflexivity|]. split; [unfold failures; by rewrite Hrec|].
  assert (3 ≤ consecutiveFailures (default fresh (down !! backend))) as Hc.
  { vm_compute. discriminate. }
  destruct (Hre Hc) as [Hup [Hdown _]]. split; assumption.
Defined.

End health_registry.

(** ** Load balancer *)

Section load_balancer.
Import LoadBalancer.

Implicit Types (counters : gmap string nat) (services : list string).

Lemma counter_of_insert path n counters :
  counter_of path (<[path := n]> counters) = n.
Proof. unfold counter_of. by rewrite lookup_insert_eq. Qed.

Lemma select_many_length n path services counters :
  length (select_many n path services counters).1 = n.
Proof.
  revert counters. induction n as [|n IH]; intros counters; simpl; [done|].
  specialize (IH (<[path := S (counter_of path counters)]> counters)).
  destruct (select_many n path services _) as [ts c2]. simpl in *. lia.
Qed.

Lemma select_many_counter n path services counters :
  counter_of path (select_many n path services counters).2
  = (counter_of path counters + n)%nat.
Proof.
  revert counters. induction n as [|n IH]; intros counters; simpl.
  - lia.
  - specialize (IH (<[path := S (counter_of path counters)]> counters)).
    destruct (select_many n path services _) as [ts c2]. simpl in *.
    rewrite IH, counter_of_insert. lia.
Qed.

Lemma select_many_other n path other services counters :
  other ≠ path →
  (select_many n path services counters).2 !! other = counters !! other.
Proof.
  intros Hne. revert counters.
  induction n as [|n IH]; intros counters; simpl; [done|].
  specialize (IH (<[path := S (counter_of path counters)]> counters)).
  destruct (select_many n path services _) as [ts c2]. simpl in *.
  rewrite IH. by rewrite lookup_insert_ne.
Qed.

(** The [k]-th of [n] selections reads the list at the counter's value at
    that moment, modulo the length. *)
Lemma select_many_lookup n path services counters k :
  services ≠ [] → (k < n)%nat →
  (select_many n path services counters).1 !! k
  = Some (services !! ((counter_of path counters + k) mod length services)%nat).
Proof.
  intros Hne. revert counters k.
  induction n as [|n IH]; intros counters k Hk; [lia|]. simpl.
  pose proof (IH (<[path := S (counter_of path counters)]> counters)) as IH'.
  destruct (select_many n path services _) as [ts c2]. simpl in *.
  destruct k as [|k]; simpl.
  - rewrite Nat.add_0_r. by destruct services.
  - rewrite IH' by lia. rewrite counter_of_insert.
    by replace (S (counter_of path counters) + k)%nat
      with (counter_of path counters + S k)%nat by lia.
Qed.

Lemma rotate_nat_add_mod (c k len : nat) :
  rotate_nat_add c k len = ((c + k) mod len)%nat.
Proof.
  unfold rotate_nat_add.
  rewrite <- Nat2Z.inj_add, <- Nat2Z.inj_mod. apply Nat2Z.id.
Qed.

Lemma rotate_Permutation {A} (n : nat) (l : list A) : rotate n l ≡ₚ l.
Proof.
  unfold rotate. rewrite Permutation_app_comm. by rewrite take_drop.
Qed.

(** C3: a path without a counter reads as counter 0; a selection returns
    [services[counter mod N]] and stores the counter plus one, leaving the
    counters of other paths alone; [N] selections in a row return the
    list rotated by the starting counter, which is a rearrangement of the
    list in its own cyclic order, and advance the counter by [N]. *)
Theorem round_robin_visits_each_endpoint_once path services counters :
  services ≠ [] →
  let N := length services in
  let c := counter_of path counters in
  counter_of path ∅ = 0%nat ∧
  getNextTargetRoundRobin path services counters
  = (services !! (c mod N)%nat, <[path := S c]> counters) ∧
  (∀ n k, (k < n)%nat →
     (select_many n path services counters).1 !! k
     = Some (services !! ((c + k) mod N)%nat)) ∧
  (select_many N path services counters).1 = Some <$> rotate c services ∧
  rotate c services ≡ₚ services ∧
  counter_of path (select_many N path services counters).2 = (c + N)%nat ∧
  (∀ other, other ≠ path →
     (select_many N path services counters).2 !! other = counters !! other).
Proof.
  intros Hne N c. split; [done|]. split.
  { unfold getNextTargetRoundRobin. fold c. by destruct services. }
  split.
  { intros n k Hk. by apply select_many_lookup. }
  split.
  { apply list_eq. intros k. destruct (decide (k < N)%nat) as [Hk|Hk].
    - rewrite select_many_lookup by done. rewrite list_lookup_fmap.
      rewrite lookup_rotate_r by done. rewrite rotate_nat_add_mod.
      fold c N.
      assert ((c + k) mod N < N)%nat as Hlt.
      { apply Nat.mod_upper_bound. subst N. by destruct services. }
      destruct (lookup_lt_is_Some_2 services _ Hlt) as [x Hx].
      by rewrite Hx.
    - rewrite !lookup_ge_None_2; [done| |].
      + rewrite length_fmap, length_rotate. fold N. lia.
      + rewrite select_many_length. lia. }
  split; [apply rotate_Permutation|].
  split; [apply select_many_counter|].
  intros other Hother. by apply select_many_other.
Qed.

Lemma round_robin_visits_each_endpoint_once_witness :
  (select_many 3 "/users" ["A"; "B"; "C"] {["/users" := 4%nat]}).1
  = [Some "B"; Some "C"; Some "A"].
Proof.
  pose proof (round_robin_visits_each_endpoint_once
                "/users" ["A"; "B"; "C"] {["/users" := 4%nat]}) as H.
  destruct H as (_ & _ & _ & Hrun & _); [discriminate|].
  exact Hrun.
Defined.

Lemma js_min_Some values m :
  js_min values = Some m → m ∈ values ∧ ∀ v, v ∈ values → m ≤ v.
Proof.
  revert m. induction values as [|x rest IH]; intros m; simpl; [done|].
  destruct (js_min rest) as [m'|] eqn:E.
  - intros [= <-]. destruct (IH m' eq_refl) as [Hin Hle]. split.
    + destruct (Z.min_spec x m') as [[_ ->]|[_ ->]]; [left|by right].
    + intros v [->|Hv]%elem_of_cons; [lia|]. specialize (Hle v Hv). lia.
  - intros [= <-]. destruct rest; [|simpl in E; by destruct (js_min rest)].
    split; [left|]. intros v [->|Hv]%elem_of_cons; [lia|].
    by apply elem_of_nil in Hv.
Qed.

Lemma elem_of_object_values (o : gmap string Z) v :
  v ∈ object_values o ↔ ∃ key, o !! key = Some v.
Proof.
  unfold object_values. rewrite list_elem_of_fmap. split.
  - intros [[key v'] [-> Hin]]. exists key. by apply elem_of_map_to_list.
  - intros [key Hkey]. exists (key, v). split; [done|].
    by apply elem_of_map_to_list.
Qed.

(** When least-connections selection returns an endpoint, the endpoint is
    one of the list handed in, and its count is the smallest of all the
    counts recorded for the path. *)
Lemma least_connections_returned_is_least
    path services u (ac : gmap string (gmap string Z)) target ac' :
  getNextTargetLeastConnections path services u ac = (Some target, ac') →
  target ∈ services ∧
  ∃ m, default ∅ (ac' !! path) !! target = Some m ∧
       ∀ other v, default ∅ (ac' !! path) !! other = Some v → m ≤ v.
Proof.
  unfold getNextTargetLeastConnections.
  set (ac1 := match ac !! path with Some _ => ac | None => _ end).
  set (conns := default ∅ (ac1 !! path)).
  intros [= Hpick <-].
  apply list_elem_of_lookup_2, list_elem_of_In, filter_In in Hpick.
  destruct Hpick as [Hin Heq]. split; [by apply list_elem_of_In|].
  unfold strict_eq in Heq.
  destruct (conns !! target) as [a|] eqn:Ea; [|done].
  destruct (js_min (object_values conns)) as [m|] eqn:Em; [|done].
  apply Z.eqb_eq in Heq as ->. exists m. split; [done|].
  intros other v Hv. apply (js_min_Some _ _ Em).
  apply elem_of_object_values. by exists other.
Qed.

(** C5: least-connections selection is meant to return an endpoint of
    the non-empty list it is given. After a first selection over both
    backends (which creates the counts for the path) and the start of a
    connection to the first, a selection over the first backend alone
    returns no endpoint, whatever [Math.random()] gives: the minimum is
    taken over every count recorded for the path, and it belongs to the
    second backend, which is not in the list. *)
Theorem least_connections_returns_nothing_for_nonempty_list :
  let started :=
    incrementConnections "/users" first_backend
      (getNextTargetLeastConnections "/users"
         [first_backend; second_backend] (Draw 0 0) ∅).2 in
  (getNextTargetLeastConnections "/users"
     [first_backend; second_backend] (Draw 0 0) ∅).1 = Some first_backend ∧
  started !! "/users"
  = Some {[first_backend := 1; second_backend := 0]} ∧
  ∀ u, (getNextTargetLeastConnections "/users" [first_backend] u started).1
       = None.
Proof.
  split; [by vm_compute|]. split; [by vm_compute|].
  intros u. unfold getNextTargetLeastConnections.
  cbn [fst].
  set (least := List.filter _ _).
  assert (least = []) as -> by (by vm_compute).
  done.
Qed.

End load_balancer.

(** ** Rate limiter *)

Section rate_limiter.
Import RateLimiter.

Implicit Types (sw : gmap string (list Z)) (w times : list Z).

Lemma window_of_insert key w sw : window_of key (<[key := w]> sw) = w.
Proof. unfold window_of. by rewrite lookup_insert_eq. Qed.

Lemma window_of_insert_ne key other w sw :
  other ≠ key → window_of other (<[key := w]> sw) = window_of other sw.
Proof. intros Hne. unfold window_of. by rewrite lookup_insert_ne. Qed.

Lemma ip_key_ne_user_key (a b : string) : "ip:" +:+ a ≠ "user:" +:+ b.
Proof. discriminate. Qed.

(** What the [while] loop removes is a run of stale timestamps at the
    front. *)
Lemma shift_stale_split now W w :
  ∃ dropped, w = dropped ++ shift_stale now W w ∧
             Forall (fun t => t < now - W) dropped.
Proof.
  induction w as [|t rest IH]; simpl.
  - by exists [].
  - destruct (t <? now - W) eqn:E.
    + destruct IH as (dropped & Heq & Hall). exists (t :: dropped).
      split; [simpl; by f_equal|]. constructor; [lia|done].
    + by exists [].
Qed.

Lemma shift_stale_length now W w :
  (length (shift_stale now W w) ≤ length w)%nat.
Proof.
  destruct (shift_stale_split now W w) as (dropped & Heq & _).
  rewrite Heq at 2. rewrite length_app. lia.
Qed.

Lemma shift_stale_same_length now W w :
  length (shift_stale now W w) = length w → shift_stale now W w = w.
Proof.
  destruct (shift_stale_split now W w) as (dropped & Heq & _).
  intros Hlen. rewrite Heq in Hlen at 2. rewrite length_app in Hlen.
  destruct dropped; [by rewrite Heq at 2|simpl in Hlen; lia].
Qed.

Lemma shift_stale_none_stale now W w :
  Forall (fun t => now - W ≤ t) w → shift_stale now W w = w.
Proof.
  destruct w as [|t rest]; [done|]. intros Hall. simpl.
  apply Forall_cons in Hall as [Ht _].
  destruct (t <? now - W) eqn:E; [lia|done].
Qed.

Lemma shift_stale_all_stale now W w :
  Forall (fun t => t < now - W) w → shift_stale now W w = [].
Proof.
  induction 1 as [|t rest Ht _ IH]; simpl; [done|].
  destruct (t <? now - W) eqn:E; [done|lia].
Qed.

Lemma chronological_cons t w :
  chronological (t :: w) = true →
  chronological w = true ∧ Forall (fun t' => t ≤ t') w.
Proof.
  revert t. induction w as [|t' rest IH]; intros t; [done|].
  intros H. change (((t <=? t') && chronological (t' :: rest)) = true) in H.
  apply andb_true_iff in H as [Hle Hrest]. split; [done|].
  destruct (IH _ Hrest) as [_ Hall]. constructor; [lia|].
  eapply Forall_impl; [exact Hall|]. simpl. intros. lia.
Qed.

(** On a window in order of arrival the loop removes every timestamp
    older than [now - windowMs] and nothing else. *)
Lemma shift_stale_chronological now W w :
  chronological w = true →
  shift_stale now W w = List.filter (fun t => negb (t <? now - W)) w.
Proof.
  induction w as [|t rest IH]; [done|]. intros Hchron.
  destruct (chronological_cons _ _ Hchron) as [Hrest Hall].
  cbn [shift_stale List.filter]. destruct (t <? now - W) eqn:E; simpl.
  - by apply IH.
  - f_equal. symmetry. apply forallb_filter_id, forallb_forall.
    intros t' Hin. rewrite Forall_forall in Hall.
    apply list_elem_of_In, Hall in Hin.
    destruct (t' <? now - W) eqn:E'; [lia|done].
Qed.

(** The limiter on a request without an authenticated user. *)
Lemma rateLimiter_anonymous ipLimit userLimit W req now sw :
  authenticated_user req = None →
  let ipKey := "ip:" +:+ ip req in
  let kept := shift_stale now W (window_of ipKey sw) in
  rateLimiter ipLimit userLimit W req now sw
  = if ipLimit <=? Z.of_nat (length kept)
    then (Status429 "IP rate limit exceeded", <[ipKey := kept]> sw)
    else (Next ipLimit (ipLimit - Z.of_nat (length (kept ++ [now]))),
          <[ipKey := kept ++ [now]]> sw).
Proof.
  intros Hanon ipKey kept. unfold rateLimiter. fold ipKey kept.
  rewrite Hanon. destruct (ipLimit <=? Z.of_nat (length kept)); [done|].
  by rewrite insert_insert_eq.
Qed.

(** The IP subject's window after one evaluation. *)
Lemma rateLimiter_ip_window ipLimit userLimit W req now sw :
  let ipKey := "ip:" +:+ ip req in
  let kept := shift_stale now W (window_of ipKey sw) in
  let result := rateLimiter ipLimit userLimit W req now sw in
  (admitted result.1 = true →
     Z.of_nat (length kept) < ipLimit ∧
     window_of ipKey result.2 = kept ++ [now]) ∧
  (admitted result.1 = false → window_of ipKey result.2 = kept).
Proof.
  intros ipKey kept result. subst result. unfold rateLimiter.
  fold ipKey kept.
  destruct (ipLimit <=? Z.of_nat (length kept)) eqn:E; simpl.
  { split; [done|]. intros _. apply window_of_insert. }
  destruct (authenticated_user req) as [uid|]; simpl.
  - match goal with
    | |- context [userLimit <=? ?n] => destruct (userLimit <=? n)
    end; simpl.
    + split; [done|]. intros _.
      rewrite window_of_insert_ne by apply ip_key_ne_user_key.
      apply window_of_insert.
    + split; [|done]. intros _. split; [lia|]. apply window_of_insert.
  - split; [|done]. intros _. split; [lia|]. apply window_of_insert.
Qed.

(** The user subject's window after one evaluation of an authenticated
    request: appended to on admission; pruned, or not looked at, on
    rejection. *)
Lemma rateLimiter_user_window ipLimit userLimit W req now sw uid :
  authenticated_user req = Some uid →
  let userKey := "user:" +:+ uid in
  let kept := shift_stale now W (window_of userKey sw) in
  let result := rateLimiter ipLimit userLimit W req now sw in
  (admitted result.1 = true →
     Z.of_nat (length kept) < userLimit ∧
     window_of userKey result.2 = kept ++ [now]) ∧
  (admitted result.1 = false →
     window_of userKey result.2 = kept ∨
     window_of userKey result.2 = window_of userKey sw).
Proof.
  intros Huser userKey kept result. subst result. unfold rateLimiter.
  rewrite Huser. fold userKey.
  assert (userKey ≠ "ip:" +:+ ip req) as Hne
    by (intros H; symmetry in H; by apply ip_key_ne_user_key in H).
  destruct (ipLimit <=? _) eqn:E; simpl.
  { split; [done|]. intros _. right. by apply window_of_insert_ne. }
  rewrite (window_of_insert_ne _ userKey) by done. fold kept.
  destruct (userLimit <=? Z.of_nat (length kept)) eqn:E'; simpl.
  - split; [done|]. intros _. left. apply window_of_insert.
  - split; [|done]. intros _. split; [lia|].
    rewrite window_of_insert_ne by done. apply window_of_insert.
Qed.

(** Every window after one evaluation is the window before, or what the
    loop kept of it, or that with [now] appended. *)
Lemma rateLimiter_window_shape ipLimit userLimit W req now sw key :
  let before := window_of key sw in
  let after :=
    window_of key (rateLimiter ipLimit userLimit W req now sw).2 in
  after = before ∨ after = shift_stale now W before ∨
  after = shift_stale now W before ++ [now].
Proof.
  cbv zeta. unfold rateLimiter.
  set (ipKey := "ip:" +:+ ip req).
  destruct (ipLimit <=? _); cbn [snd].
  { destruct (decide (key = ipKey)) as [->|Hne].
    - right. left. apply window_of_insert.
    - left. by apply window_of_insert_ne. }
  destruct (authenticated_user req) as [uid|]; cbn [snd].
  - set (userKey := "user:" +:+ uid).
    assert (userKey ≠ ipKey) as Hkeys
      by (intros H; symmetry in H; by apply ip_key_ne_user_key in H).
    rewrite (window_of_insert_ne ipKey userKey) by done.
    destruct (userLimit <=? _); cbn [snd].
    + destruct (decide (key = userKey)) as [->|Hu].
      { right. left. apply window_of_insert. }
      rewrite window_of_insert_ne by done.
      destruct (decide (key = ipKey)) as [->|Hi].
      * right. left. apply window_of_insert.
      * left. by apply window_of_insert_ne.
    + destruct (decide (key = ipKey)) as [->|Hi].
      { right. right. apply window_of_insert. }
      rewrite window_of_insert_ne by done.
      destruct (decide (key = userKey)) as [->|Hu].
      * right. right. apply window_of_insert.
      * left. by rewrite !window_of_insert_ne.
  - destruct (decide (key = ipKey)) as [->|Hi].
    + right. right. apply window_of_insert.
    + left. by rewrite !window_of_insert_ne.
Qed.

Lemma chronological_shift_stale now W w :
  chronological w = true → chronological (shift_stale now W w) = true.
Proof.
  induction w as [|t rest IH]; [done|]. intros Hchron.
  cbn [shift_stale]. destruct (t <? now - W); [|done].
  apply IH. by destruct (chronological_cons _ _ Hchron).
Qed.

Lemma chronological_snoc w now :
  chronological w = true → Forall (fun t => t ≤ now) w →
  chronological (w ++ [now]) = true.
Proof.
  induction w as [|t rest IH]; [done|]. intros Hchron Hall.
  apply Forall_cons in Hall as [Ht Hrest].
  destruct (chronological_cons _ _ Hchron) as [Hchron' _].
  specialize (IH Hchron' Hrest).
  destruct rest as [|t' rest].
  - simpl. rewrite andb_true_r. lia.
  - change (((t <=? t') && chronological ((t' :: rest) ++ [now])) = true).
    rewrite IH, andb_true_r.
    change (((t <=? t') && chronological (t' :: rest)) = true) in Hchron.
    by apply andb_true_iff in Hchron as [? _].
Qed.

(** With a clock that does not run backwards, the windows stay in order of
    arrival and hold no timestamp later than the clock. *)
Lemma rateLimiter_keeps_chronological ipLimit userLimit W req now sw key :
  chronological (window_of key sw) = true →
  Forall (fun t => t ≤ now) (window_of key sw) →
  let after :=
    window_of key (rateLimiter ipLimit userLimit W req now sw).2 in
  chronological after = true ∧ Forall (fun t => t ≤ now) after.
Proof.
  intros Hchron Hall. cbv zeta.
  assert (Forall (fun t => t ≤ now) (shift_stale now W (window_of key sw)))
    as Hkept.
  { destruct (shift_stale_split now W (window_of key sw))
      as (dropped & Heq & _).
    rewrite Heq in Hall. by apply Forall_app in Hall as [_ ?]. }
  destruct (rateLimiter_window_shape ipLimit userLimit W req now sw key)
    as [->|[->| ->]].
  - done.
  - split; [by apply chronological_shift_stale|done].
  - split.
    + apply chronological_snoc; [by apply chronological_shift_stale|done].
    + apply Forall_app. split; [done|]. by apply Forall_singleton.
Qed.

(** Whether a request is admitted, from the two counts that remain. *)
Lemma rateLimiter_admitted ipLimit userLimit W req now sw :
  admitted (rateLimiter ipLimit userLimit W req now sw).1
  = negb (ipLimit <=?
            Z.of_nat (length (shift_stale now W
                                (window_of ("ip:" +:+ ip req) sw))))
    && match authenticated_user req with
       | Some uid =>
           negb (userLimit <=?
                   Z.of_nat (length (shift_stale now W
                                       (window_of ("user:" +:+ uid) sw))))
       | None => true
       end.
Proof.
  unfold rateLimiter. destruct (ipLimit <=? _); [done|].
  destruct (authenticated_user req) as [uid|]; [|done].
  rewrite window_of_insert_ne
    by (intros H; symmetry in H; by apply ip_key_ne_user_key in H).
  by destruct (userLimit <=? _).
Qed.

(** Requests of one client that all fall within one window length of each
    other and of what its windows hold, as long as the limits leave room:
    every one is admitted and recorded in the client's windows. *)
Lemma serve_within_limits ipLimit userLimit W req times sw :
  let ipKey := "ip:" +:+ ip req in
  (∀ a b, a ∈ times → b ∈ window_of ipKey sw ++ times → a - W ≤ b) →
  Z.of_nat (length (window_of ipKey sw) + length times) ≤ ipLimit →
  (∀ uid, authenticated_user req = Some uid →
     (∀ a b, a ∈ times → b ∈ window_of ("user:" +:+ uid) sw → a - W ≤ b) ∧
     Z.of_nat (length (window_of ("user:" +:+ uid) sw) + length times)
     ≤ userLimit) →
  (serve ipLimit userLimit W req times sw).1 = replicate (length times) true ∧
  window_of ipKey (serve ipLimit userLimit W req times sw).2
  = window_of ipKey sw ++ times ∧
  (∀ uid, authenticated_user req = Some uid →
     window_of ("user:" +:+ uid) (serve ipLimit userLimit W req times sw).2
     = window_of ("user:" +:+ uid) sw ++ times).
Proof.
  intros ipKey. revert sw.
  induction times as [|now rest IH]; intros sw Hnear Hroom Huser.
  { simpl. rewrite app_nil_r. split; [done|]. split; [done|].
    intros uid _. by rewrite app_nil_r. }
  cbn [serve].
  pose proof (rateLimiter_admitted ipLimit userLimit W req now sw) as Hadm.
  pose proof (rateLimiter_ip_window ipLimit userLimit W req now sw)
    as [Hip _].
  cbv zeta in Hip. fold ipKey in Hadm, Hip.
  assert (shift_stale now W (window_of ipKey sw) = window_of ipKey sw)
    as Hkept.
  { apply shift_stale_none_stale, Forall_forall. intros b Hb.
    apply Hnear; [left|]. apply elem_of_app. by left. }
  rewrite Hkept in Hadm, Hip.
  assert (admitted (rateLimiter ipLimit userLimit W req now sw).1 = true)
    as Hyes.
  { rewrite Hadm. apply andb_true_iff. split.
    - apply negb_true_iff, Z.leb_gt. cbn [length] in Hroom. lia.
    - destruct (authenticated_user req) as [uid|] eqn:Eu; [|done].
      destruct (Huser uid eq_refl) as [Hun Hur].
      rewrite shift_stale_none_stale.
      + apply negb_true_iff, Z.leb_gt. cbn [length] in Hur. lia.
      + apply Forall_forall. intros b Hb. apply Hun; [left|done]. }
  destruct (Hip Hyes) as [_ Hipw].
  assert (∀ uid, authenticated_user req = Some uid →
            window_of ("user:" +:+ uid)
              (rateLimiter ipLimit userLimit W req now sw).2
            = window_of ("user:" +:+ uid) sw ++ [now]) as Huw.
  { intros uid Hu.
    destruct (rateLimiter_user_window ipLimit userLimit W req now sw uid Hu)
      as [Hin _].
    destruct (Hin Hyes) as [_ ->]. f_equal.
    destruct (Huser uid Hu) as [Hun _].
    apply shift_stale_none_stale, Forall_forall. intros b Hb.
    apply Hun; [left|done]. }
  destruct (rateLimiter ipLimit userLimit W req now sw) as [o sw1].
  cbn [fst snd] in *.
  destruct (IH sw1) as (IHd & IHw & IHu).
  - rewrite Hipw. intros a b Ha Hb. apply Hnear; [by right|].
    rewrite <- app_assoc in Hb. exact Hb.
  - rewrite Hipw, length_app. cbn [length] in *. lia.
  - intros uid Hu. rewrite (Huw uid Hu).
    destruct (Huser uid Hu) as [Hun Hur]. split.
    + intros a b Ha [Hb| ->%list_elem_of_singleton]%elem_of_app.
      * apply Hun; [by right|done].
      * apply Hnear; [by right|]. apply elem_of_app. right. left.
    + rewrite length_app. cbn [length] in *. lia.
  - destruct (serve ipLimit userLimit W req rest sw1) as [ds sw2].
    cbn [fst snd] in *. rewrite Hyes, IHd, IHw, Hipw.
    split; [done|]. split; [by rewrite <- app_assoc|].
    intros uid Hu. rewrite (IHu uid Hu), (Huw uid Hu).
    by rewrite <- app_assoc.
Qed.

(** C7: one evaluation of the limiter removes from the subject's window
    the timestamps older than [now - W] (all of them when the window is in
    order of arrival); a request is admitted only if the count that remains
    is below the subject's limit, and then its timestamp is appended; a
    rejected request is not appended, and when the subject's own limit
    rejects it the window stays exactly as it was. This holds for the IP
    subject and for the user subject of an authenticated request. So for a
    client whose windows are empty, with [L] the limit that binds it, [L]
    requests within one window length are all admitted, the next one within
    the same window is rejected, and a request made once all of them are
    older than the window is admitted again. *)
Theorem sliding_window_admits_up_to_limit
    ipLimit userLimit W req now sw times extra later :
  let ipKey := "ip:" +:+ ip req in
  let w := window_of ipKey sw in
  let kept := shift_stale now W w in
  let result := rateLimiter ipLimit userLimit W req now sw in
  (chronological w = true →
     kept = List.filter (fun t => negb (t <? now - W)) w) ∧
  (admitted result.1 = true →
     Z.of_nat (length kept) < ipLimit ∧
     window_of ipKey result.2 = kept ++ [now]) ∧
  (admitted result.1 = false → window_of ipKey result.2 = kept) ∧
  (ipLimit ≤ Z.of_nat (length kept) → Z.of_nat (length w) ≤ ipLimit →
     admitted result.1 = false ∧ window_of ipKey result.2 = w) ∧
  (∀ uid, authenticated_user req = Some uid →
     let userKey := "user:" +:+ uid in
     let uw := window_of userKey sw in
     let ukept := shift_stale now W uw in
     (chronological uw = true →
        ukept = List.filter (fun t => negb (t <? now - W)) uw) ∧
     (admitted result.1 = true →
        Z.of_nat (length ukept) < userLimit ∧
        window_of userKey result.2 = ukept ++ [now]) ∧
     (admitted result.1 = false →
        window_of userKey result.2 = ukept ∨
        window_of userKey result.2 = uw) ∧
     (userLimit ≤ Z.of_nat (length ukept) → Z.of_nat (length uw) ≤ userLimit →
        admitted result.1 = false ∧ window_of userKey result.2 = uw)) ∧
  (w = [] →
   (∀ uid, authenticated_user req = Some uid →
      window_of ("user:" +:+ uid) sw = []) →
   Z.of_nat (length times) = effective_limit ipLimit userLimit req →
   (∀ a b, a ∈ times ++ [extra] → b ∈ times ++ [extra] → a - W ≤ b) →
   (∀ t, t ∈ times → t < later - W) →
   let served := serve ipLimit userLimit W req times sw in
   let refused := rateLimiter ipLimit userLimit W req extra served.2 in
   served.1 = replicate (length times) true ∧
   admitted refused.1 = false ∧
   window_of ipKey refused.2 = times ∧
   (∀ uid, authenticated_user req = Some uid →
      window_of ("user:" +:+ uid) refused.2 = times) ∧
   (times ≠ [] →
    admitted (rateLimiter ipLimit userLimit W req later refused.2).1 = true)).
Proof.
  cbv zeta.
  pose proof (rateLimiter_ip_window ipLimit userLimit W req now sw)
    as [Hadmit Hreject].
  cbv zeta in Hadmit, Hreject.
  set (ipKey := "ip:" +:+ ip req) in *.
  set (w := window_of ipKey sw) in *.
  split; [apply shift_stale_chronological|].
  split; [exact Hadmit|]. split; [exact Hreject|]. split.
  { intros Hfull Hroom.
    set (result := rateLimiter ipLimit userLimit W req now sw) in *.
    assert (admitted result.1 = false) as Hrej.
    { destruct (admitted result.1) eqn:E; [|done].
      destruct (Hadmit eq_refl) as [Hlt _]. lia. }
    split; [done|]. rewrite (Hreject Hrej).
    apply shift_stale_same_length.
    pose proof (shift_stale_length now W w). lia. }
  split.
  { intros uid Huser.
    pose proof (rateLimiter_user_window ipLimit userLimit W req now sw uid
                  Huser) as [Huadmit Hureject].
    cbv zeta in Huadmit, Hureject.
    set (uw := window_of ("user:" +:+ uid) sw) in *.
    split; [apply shift_stale_chronological|].
    split; [exact Huadmit|]. split; [exact Hureject|].
    intros Hfull Hroom.
    set (result := rateLimiter ipLimit userLimit W req now sw) in *.
    assert (admitted result.1 = false) as Hrej.
    { destruct (admitted result.1) eqn:E; [|done].
      destruct (Huadmit eq_refl) as [Hlt _]. lia. }
    split; [done|].
    assert (shift_stale now W uw = uw) as Hsame.
    { apply shift_stale_same_length.
      pose proof (shift_stale_length now W uw). lia. }
    destruct (Hureject Hrej) as [->| ->]; done. }
  intros Hempty Huempty Hcount Hnear Hlate.
  destruct (serve_within_limits ipLimit userLimit W req times sw)
    as (Hds & Hwin & Huwin).
  { fold ipKey w. rewrite Hempty. simpl. intros a b Ha Hb.
    apply Hnear; apply elem_of_app; by left. }
  { fold ipKey w. rewrite Hempty. simpl. unfold effective_limit in Hcount.
    destruct (authenticated_user req); lia. }
  { intros uid Hu. rewrite (Huempty uid Hu). split.
    - intros a b _ Hb. by apply elem_of_nil in Hb.
    - simpl. unfold effective_limit in Hcount. rewrite Hu in Hcount. lia. }
  fold ipKey w in Hwin. rewrite Hempty in Hwin. simpl in Hwin.
  set (served := serve ipLimit userLimit W req times sw) in *.
  split; [done|].
  assert (∀ uid, authenticated_user req = Some uid →
            window_of ("user:" +:+ uid) served.2 = times) as Huwin'.
  { intros uid Hu. by rewrite (Huwin uid Hu), (Huempty uid Hu). }
  assert (shift_stale extra W times = times) as Hfresh.
  { apply shift_stale_none_stale, Forall_forall. intros b Hb.
    apply Hnear; apply elem_of_app; [right; left|by left]. }
  assert (shift_stale later W times = []) as Hstale.
  { apply shift_stale_all_stale, Forall_forall. exact Hlate. }
  set (refused := rateLimiter ipLimit userLimit W req extra served.2).
  assert (admitted refused.1 = false) as Hrefused.
  { subst refused. rewrite rateLimiter_admitted. fold ipKey.
    rewrite Hwin, Hfresh. unfold effective_limit in Hcount.
    destruct (authenticated_user req) as [uid|] eqn:Eu.
    - rewrite (Huwin' uid eq_refl), Hfresh.
      apply andb_false_iff.
      destruct (Z.min_spec ipLimit userLimit) as [[_ Hm]|[_ Hm]].
      + left. apply negb_false_iff, Z.leb_le. lia.
      + right. apply negb_false_iff, Z.leb_le. lia.
    - rewrite andb_true_r. apply negb_false_iff, Z.leb_le. lia. }
  split; [done|].
  pose proof (rateLimiter_ip_window ipLimit userLimit W req extra served.2)
    as [_ Hipw].
  cbv zeta in Hipw. fold ipKey refused in Hipw.
  rewrite Hwin, Hfresh in Hipw. specialize (Hipw Hrefused).
  split; [done|].
  assert (∀ uid, authenticated_user req = Some uid →
            window_of ("user:" +:+ uid) refused.2 = times) as Huafter.
  { intros uid Hu.
    destruct (rateLimiter_user_window ipLimit userLimit W req extra
                served.2 uid Hu) as [_ Hrej].
    cbv zeta in Hrej. fold refused in Hrej.
    rewrite (Huwin' uid Hu), Hfresh in Hrej.
    by destruct (Hrej Hrefused). }
  split; [done|].
  intros Hsome. rewrite rateLimiter_admitted. fold ipKey.
  rewrite Hipw, Hstale. cbn [length].
  assert (0 < effective_limit ipLimit userLimit req) as Hpos.
  { rewrite <- Hcount. destruct times; [done|]. cbn [length]. lia. }
  unfold effective_limit in Hpos. apply andb_true_iff.
  destruct (authenticated_user req) as [uid|] eqn:Eu.
  - rewrite (Huafter uid eq_refl), Hstale. cbn [length].
    split; apply negb_true_iff, Z.leb_gt; lia.
  - split; [|done]. apply negb_true_iff, Z.leb_gt. lia.
Qed.

Lemma sliding_window_admits_up_to_limit_witness :
  let client := {| ip := "10.0.0.7"; userId := Some "alice" |} in
  let served := serve 5 3 60000 client [0; 20000; 59999] ∅ in
  let refused := rateLimiter 5 3 60000 client 60000 served.2 in
  served.1 = [true; true; true] ∧
  admitted refused.1 = false ∧
  window_of "ip:10.0.0.7" refused.2 = [0; 20000; 59999] ∧
  window_of "user:alice" refused.2 = [0; 20000; 59999] ∧
  admitted (rateLimiter 5 3 60000 client 120000 refused.2).1 = true.
Proof.
  intros client served refused.
  pose proof (sliding_window_admits_up_to_limit
                5 3 60000 client 0 ∅ [0; 20000; 59999] 60000 120000)
    as (_ & _ & _ & _ & _ & Hrun).
  destruct Hrun as (Hall & Hrej & Hwin & Huwin & Hagain).
  - reflexivity.
  - intros uid [= <-]. reflexivity.
  - reflexivity.
  - intros a b Ha Hb.
    repeat (apply elem_of_cons in Ha as [->|Ha]);
      repeat (apply elem_of_cons in Hb as [->|Hb]);
      try lia; try (by apply elem_of_nil in Ha); by apply elem_of_nil in Hb.
  - intros t Ht.
    repeat (apply elem_of_cons in Ht as [->|Ht]);
      try lia; by apply elem_of_nil in Ht.
  - split; [exact Hall|]. split; [exact Hrej|]. split; [exact Hwin|].
    split; [apply (Huwin "alice"); reflexivity|].
    apply Hagain. discriminate.
Defined.

End rate_limiter.

(** ** Cache *)

Section cache.
Import Cache.

Implicit Types (st : store) (req : request) (key url : string).

(** *** Lookup *)

(** A response served from the cache is the stored payload of an entry
    that has not reached its expiry, and serving it changes nothing. *)
Lemma served_entry_is_fresh req now st data st' :
  cacheMiddleware req now st = (Served data, st') →
  cache st !! originalUrl req = Some data ∧
  (∃ md, cacheMetadata st !! originalUrl req = Some md ∧
         now < expiresAt md) ∧
  st' = st.
Proof.
  unfold cacheMiddleware.
  destruct (negb (String.eqb (method req) "GET")); [done|].
  destruct (negb (existsb _ CACHEABLE_ROUTES)); [done|].
  destruct (cache st !! originalUrl req) as [d|]; [|done].
  destruct (truthy d); [|done].
  destruct (cacheMetadata st !! originalUrl req) as [md|]; [|done].
  destruct (now <? expiresAt md) eqn:E; [|done].
  intros [= <- <-]. split; [done|]. split; [|done].
  exists md. split; [done|]. lia.
Qed.

(** An entry at or past its expiry is never served. *)
Lemma expired_entry_not_served req now st md :
  cacheMetadata st !! originalUrl req = Some md →
  expiresAt md ≤ now →
  ∃ wrapped, (cacheMiddleware req now st).1 = Forwarded wrapped.
Proof.
  intros Hmd Hexp.
  destruct (cacheMiddleware req now st) as [[data|wrapped] st'] eqn:E.
  - apply served_entry_is_fresh in E as (_ & (md' & Hmd' & Hlt) & _).
    rewrite Hmd in Hmd'. injection Hmd' as <-. lia.
  - by exists wrapped.
Qed.

(** An expired entry holding a truthy payload is removed from both maps
    by the lookup that finds it. *)
Lemma expired_truthy_entry_evicted req now st data md :
  method req = "GET" →
  existsb (fun route => startsWith (originalUrl req) route) CACHEABLE_ROUTES
  = true →
  cache st !! originalUrl req = Some data →
  truthy data = true →
  cacheMetadata st !! originalUrl req = Some md →
  expiresAt md ≤ now →
  let result := cacheMiddleware req now st in
  result.1 = Forwarded true ∧
  cache result.2 !! originalUrl req = None ∧
  cacheMetadata result.2 !! originalUrl req = None.
Proof.
  intros Hget Hroute Hdata Htruthy Hmd Hexp. unfold cacheMiddleware.
  rewrite Hget, Hroute, Hdata, Htruthy, Hmd. simpl.
  destruct (now <? expiresAt md) eqn:E; [lia|]. simpl.
  by rewrite !lookup_delete_eq.
Qed.

(** C4: an entry past its expiry is meant to be removed by the lookup
    that finds it. The entry stored for the JSON body [null] expires at
    300000; the lookup at 300001 treats it as a miss and leaves it in
    both maps. *)
Theorem expired_falsy_entry_stays_in_cache :
  cache null_stored !! "/products" = Some JNull ∧
  cacheMetadata null_stored !! "/products"
  = Some {| cachedAt := 0; expiresAt := 300000 |} ∧
  (cacheMiddleware products 300001 null_stored).1 = Forwarded true ∧
  cache (cacheMiddleware products 300001 null_stored).2 !! "/products"
  = Some JNull ∧
  cacheMetadata (cacheMiddleware products 300001 null_stored).2 !! "/products"
  = Some {| cachedAt := 0; expiresAt := 300000 |}.
Proof. by vm_compute. Qed.

(** *** Time to live *)

Lemma startsWith_cons_inv url (c : ascii) (p : string) :
  startsWith url (String c p) = true →
  ∃ rest, url = String c rest ∧ startsWith rest p = true.
Proof.
  unfold startsWith. destruct url as [|c' rest]; simpl; [done|].
  destruct (ascii_dec c c') as [->|]; [|done]. intros H. by exists rest.
Qed.

(** No two keys of [CACHE_DURATIONS] are prefixes of the same URL: they
    differ in their second character. *)
Lemma configured_prefixes_exclusive url :
  (startsWith url "/products" = true →
     startsWith url "/stats" = false ∧ startsWith url "/users" = false) ∧
  (startsWith url "/stats" = true → startsWith url "/users" = false).
Proof.
  split; intros H.
  - apply startsWith_cons_inv in H as (r1 & -> & H).
    apply startsWith_cons_inv in H as (r2 & -> & _). done.
  - apply startsWith_cons_inv in H as (r1 & -> & H).
    apply startsWith_cons_inv in H as (r2 & -> & _). done.
Qed.

(** The first configured key that is a prefix of the URL is the longest
    one, since it is the only one. *)
Lemma cacheDuration_longest_prefix url :
  cacheDuration url = longest_prefix_ttl url.
Proof.
  destruct (configured_prefixes_exclusive url) as [Hp Hs].
  unfold cacheDuration, duration_in, longest_prefix_ttl, longest_match,
    CACHE_DURATIONS.
  cbn [List.find fold_right fst snd].
  destruct (startsWith url "/products") eqn:E1.
  - destruct (Hp eq_refl) as [-> ->]. done.
  - destruct (startsWith url "/stats") eqn:E2.
    + rewrite (Hs eq_refl). done.
    + by destruct (startsWith url "/users").
Qed.

(** This rests on the configured keys, not on the lookup: over a table
    where one key extends another, the lookup still answers with the first
    key in order. *)
Remark first_match_need_not_be_longest :
  duration_in [("/a", 1000); ("/ab", 2000)] "/abc" = 1000 ∧
  longest_match [("/a", 1000); ("/ab", 2000)] "/abc" = Some ("/ab", 2000).
Proof. by vm_compute. Qed.

(** C8: a response that is stored gets the payload under the request
    URL, with [cachedAt] the first clock reading and [expiresAt] the
    second clock reading plus the duration configured for the longest
    configured prefix of the URL, or plus the default of five minutes
    when no configured prefix matches. *)
Theorem stored_entry_expires_after_ttl
    req (jsonData : json) (cachedNow expiryNow : Z) st :
  let result := send_wrapper req true (Some jsonData) cachedNow expiryNow st in
  result.1 = Some "false" ∧
  cache result.2 !! originalUrl req = Some jsonData ∧
  cacheMetadata result.2 !! originalUrl req
  = Some {| cachedAt := cachedNow;
            expiresAt := expiryNow + longest_prefix_ttl (originalUrl req) |} ∧
  longest_prefix_ttl (originalUrl req)
  = (if startsWith (originalUrl req) "/products" then 300000
     else if startsWith (originalUrl req) "/stats" then 600000
     else if startsWith (originalUrl req) "/users" then 120000
     else 300000).
Proof.
  simpl. rewrite !lookup_insert_eq, cacheDuration_longest_prefix.
  split; [done|]. split; [done|]. split; [done|].
  rewrite <- cacheDuration_longest_prefix.
  unfold cacheDuration, duration_in, CACHE_DURATIONS.
  cbn [List.find fst].
  by repeat match goal with
            | |- context [startsWith ?u ?p] => destruct (startsWith u p)
            end.
Qed.

(** The scenario of the specification: an entry stored at time 0 for
    [/products] expires at 300000, is served at 299999, and is dropped by
    the lookup at 300001. *)
Example products_entry_lifetime :
  let stored :=
    (send_wrapper products true (Some (JObject [])) 0 0 empty_store).2 in
  expiresAt <$> cacheMetadata stored !! "/products" = Some 300000 ∧
  (cacheMiddleware products 299999 stored).1 = Served (JObject []) ∧
  (cacheMiddleware products 300001 stored).1 = Forwarded true ∧
  cache (cacheMiddleware products 300001 stored).2 !! "/products" = None.
Proof. by vm_compute. Qed.

(** *** Invalidation *)

Lemma startsWith_includes key p :
  startsWith key p = true → includes key p = true.
Proof. intros H. destruct key; cbn [includes]; by rewrite H. Qed.

Lemma includes_empty key : includes key "" = true.
Proof. by destruct key. Qed.

(** The loop removes from both maps the visited keys that contain the
    pattern. *)
Lemma invalidate_loop_lookup p keys st key :
  let gone := bool_decide (key ∈ keys) && includes key p in
  cache (invalidate_loop p keys st) !! key
  = (if gone then None else cache st !! key) ∧
  cacheMetadata (invalidate_loop p keys st) !! key
  = (if gone then None else cacheMetadata st !! key).
Proof.
  unfold invalidate_loop. revert st.
  induction keys as [|k rest IH]; intros st; [done|].
  cbn zeta in *. cbn [fold_left].
  match goal with
  | |- context [fold_left _ rest ?s] => specialize (IH s)
  end.
  destruct IH as [-> ->].
  destruct (decide (key = k)) as [->|Hne].
  - rewrite (bool_decide_eq_true_2 (k ∈ k :: rest)) by left.
    destruct (includes k p) eqn:E; simpl.
    + rewrite !lookup_delete_eq, andb_true_r. by case_bool_decide.
    + by rewrite andb_false_r.
  - assert (bool_decide (key ∈ k :: rest) = bool_decide (key ∈ rest)) as ->.
    { apply bool_decide_ext. rewrite elem_of_cons. intuition. }
    destruct (bool_decide (key ∈ rest) && includes key p); [done|].
    destruct (includes k p); simpl; [|done].
    by rewrite !lookup_delete_ne.
Qed.

(** The administrative clear with a pattern: an entry is gone exactly
    when its key contains the pattern. *)
Lemma invalidateCache_pattern_lookup p st key :
  cache (invalidateCache (Some p) st) !! key
  = if includes key p then None else cache st !! key.
Proof.
  unfold invalidateCache. destruct (String.eqb p "") eqn:E.
  - apply String.eqb_eq in E as ->. by rewrite includes_empty.
  - destruct (invalidate_loop_lookup p (map_to_list (cache st)).*1 st key)
      as [-> _].
    destruct (includes key p); [|by rewrite andb_false_r].
    rewrite andb_true_r. case_bool_decide as Hvisited; [done|].
    destruct (cache st !! key) as [data|] eqn:Hdata; [|done].
    exfalso. apply Hvisited, list_elem_of_fmap. exists (key, data).
    split; [done|]. by apply elem_of_map_to_list.
Qed.

Lemma invalidateCache_pattern_metadata p st key :
  (includes key p = true → is_Some (cache st !! key) →
     cacheMetadata (invalidateCache (Some p) st) !! key = None) ∧
  (includes key p = false →
     cacheMetadata (invalidateCache (Some p) st) !! key
     = cacheMetadata st !! key).
Proof.
  unfold invalidateCache. destruct (String.eqb p "") eqn:E.
  - apply String.eqb_eq in E as ->. rewrite includes_empty.
    split; [done|discriminate].
  - destruct (invalidate_loop_lookup p (map_to_list (cache st)).*1 st key)
      as [_ ->].
    split.
    + intros -> [data Hdata]. rewrite andb_true_r.
      rewrite bool_decide_eq_true_2; [done|].
      apply list_elem_of_fmap. exists (key, data).
      split; [done|]. by apply elem_of_map_to_list.
    + intros ->. by rewrite andb_false_r.
Qed.

Lemma split_first_segment seg rest :
  slash_free seg = true →
  rest = "" ∨ startsWith rest "/" = true →
  ∃ tail, split "/" (seg +:+ rest) = seg :: tail.
Proof.
  intros Hseg Hrest. induction seg as [|c seg IH]; simpl.
  - destruct Hrest as [->|Hrest]; [by exists []|].
    apply startsWith_cons_inv in Hrest as (r & -> & _).
    simpl. by eexists.
  - simpl in Hseg. apply andb_true_iff in Hseg as [Hc Hseg].
    apply negb_true_iff in Hc. rewrite Hc.
    destruct (IH Hseg) as [tail ->]. by eexists.
Qed.

(** For a path whose first segment is [seg], [baseRoute] is ["/seg"]. *)
Lemma baseRoute_first_segment seg rest :
  slash_free seg = true →
  rest = "" ∨ startsWith rest "/" = true →
  baseRoute ("/" +:+ seg +:+ rest) = "/" +:+ seg.
Proof.
  intros Hseg Hrest. unfold baseRoute.
  destruct (split_first_segment seg rest Hseg Hrest) as [tail Hsplit].
  change ("/" +:+ seg +:+ rest) with (String "/" (seg +:+ rest)).
  cbn [split]. rewrite Hsplit. by destruct tail.
Qed.

Lemma lookup_without_entry_forwards get now st :
  method get = "GET" →
  existsb (fun route => startsWith (originalUrl get) route) CACHEABLE_ROUTES
  = true →
  cache st !! originalUrl get = None →
  cacheMiddleware get now st = (Forwarded true, st).
Proof.
  intros Hget Hroute Hnone. unfold cacheMiddleware.
  by rewrite Hget, Hroute, Hnone.
Qed.

(** C9: a POST, PUT, DELETE or PATCH request to a path whose first
    segment is [seg] removes every cache entry whose key starts with
    ["/seg"], so a cacheable GET for such a key is forwarded as a miss
    afterwards. The administrative clear without a pattern empties the
    cache; with a pattern it removes exactly the entries whose key
    contains the pattern. *)
Theorem write_request_invalidates_first_segment
    req st seg rest key get now pattern :
  (method req ∈ ["POST"; "PUT"; "DELETE"; "PATCH"] →
   path req = "/" +:+ seg +:+ rest →
   slash_free seg = true →
   rest = "" ∨ startsWith rest "/" = true →
   startsWith key ("/" +:+ seg) = true →
   let st' := cacheInvalidationMiddleware req st in
   cache st' !! key = None ∧
   (method get = "GET" →
    existsb (fun route => startsWith (originalUrl get) route)
      CACHEABLE_ROUTES = true →
    originalUrl get = key →
    cacheMiddleware get now st' = (Forwarded true, st'))) ∧
  invalidateCache None st = empty_store ∧
  (∀ k, cache (invalidateCache (Some pattern) st) !! k
        = if includes k pattern then None else cache st !! k) ∧
  (∀ k, includes k pattern = true → is_Some (cache st !! k) →
        cacheMetadata (invalidateCache (Some pattern) st) !! k = None) ∧
  (∀ k, includes k pattern = false →
        cacheMetadata (invalidateCache (Some pattern) st) !! k
        = cacheMetadata st !! k).
Proof.
  split.
  { intros Hmethod Hpath Hseg Hrest Hkey st'.
    assert (cache st' !! key = None) as Hgone.
    { subst st'. unfold cacheInvalidationMiddleware.
      assert (existsb (String.eqb (method req))
                ["POST"; "PUT"; "DELETE"; "PATCH"] = true) as ->.
      { apply existsb_exists. exists (method req).
        split; [by apply list_elem_of_In|apply String.eqb_refl]. }
      rewrite invalidateCache_pattern_lookup, Hpath.
      rewrite baseRoute_first_segment by done.
      by rewrite (startsWith_includes _ _ Hkey). }
    split; [done|]. intros Hget Hroute Hurl.
    apply lookup_without_entry_forwards; [done..|]. by rewrite Hurl. }
  split; [done|].
  split; [intros k; apply invalidateCache_pattern_lookup|].
  split; intros k; by apply invalidateCache_pattern_metadata.
Qed.

Lemma write_request_invalidates_first_segment_witness :
  let stored :=
    (send_wrapper {| method := "GET"; originalUrl := "/users/7?full=1";
                     path := "/users/7" |}
       true (Some (JObject [])) 0 0 empty_store).2 in
  let put := {| method := "PUT"; originalUrl := "/users/7";
                path := "/users/7" |} in
  let get := {| method := "GET"; originalUrl := "/users/7?full=1";
                path := "/users/7" |} in
  (cacheMiddleware get 10 stored).1 = Served (JObject []) ∧
  (cacheMiddleware get 20 (cacheInvalidationMiddleware put stored)).1
  = Forwarded true.
Proof.
  intros stored put get. split; [reflexivity|].
  pose proof (write_request_invalidates_first_segment
                put stored "users" "/7" "/users/7?full=1" get 20 "/users")
    as [Hwrite _].
  destruct Hwrite as [_ Hmiss].
  - right. left.
  - reflexivity.
  - reflexivity.
  - right. reflexivity.
  - reflexivity.
  - rewrite Hmiss; reflexivity.
Defined.

End cache.

(** ** Health registry: probing rounds and the summary *)

Section health_rounds.
Import HealthChecker.

Implicit Types (sh : gmap string health) (cs : list (string * probe * Z)).

Lemma performHealthChecks_cons c cs sh :
  performHealthChecks (c :: cs) sh
  = performHealthChecks cs
      (updateServiceHealth c.1.1 (checkServiceHealth c.1.2) c.2 sh).
Proof. done. Qed.

Lemma performHealthChecks_projection service cs sh1 sh2 :
  sh1 !! service = sh2 !! service →
  performHealthChecks cs sh1 !! service
  = performHealthChecks
      (List.filter (fun c => bool_decide (c.1.1 = service)) cs) sh2 !! service.
Proof.
  revert sh1 sh2. induction cs as [|c cs IH]; intros sh1 sh2 Heq; [done|].
  rewrite performHealthChecks_cons. cbn [List.filter].
  case_bool_decide as Hc.
  - rewrite performHealthChecks_cons. apply IH.
    rewrite Hc, !updateServiceHealth_lookup. by rewrite Heq.
  - apply IH. rewrite updateServiceHealth_lookup_ne; [done|].
    intros ->. by apply Hc.
Qed.

Lemma performHealthChecks_unprobed service cs sh :
  service ∉ cs.*1.*1 → performHealthChecks cs sh !! service = sh !! service.
Proof.
  intros Hnot.
  rewrite (performHealthChecks_projection service cs sh sh eq_refl).
  assert (List.filter (fun c => bool_decide (c.1.1 = service)) cs = []) as ->;
    [|done].
  induction cs as [|c cs IH]; [done|]. cbn [List.filter].
  case_bool_decide as Hc.
  - exfalso. apply Hnot. rewrite !fmap_cons, Hc. left.
  - apply IH. intros Hin. apply Hnot. rewrite !fmap_cons. by right.
Qed.

(** X1: what a round of probes does to an endpoint's record depends only
    on the results for that endpoint, in the order they complete; the
    completions of other endpoints, however interleaved, make no
    difference, and an endpoint without a probe keeps its record. *)
Theorem probe_round_is_per_endpoint service cs sh :
  performHealthChecks cs sh !! service
  = performHealthChecks
      (List.filter (fun c => bool_decide (c.1.1 = service)) cs) sh !! service
  ∧ (service ∉ cs.*1.*1 → performHealthChecks cs sh !! service = sh !! service).
Proof.
  split; [by apply performHealthChecks_projection|].
  apply performHealthChecks_unprobed.
Qed.

Lemma probe_round_is_per_endpoint_witness :
  performHealthChecks
    [(backend, NoResponse, 10); (newcomer, Responded 200, 11)] ∅ !! "other"
  = (∅ : gmap string health) !! "other".
Proof.
  apply (proj2 (probe_round_is_per_endpoint "other"
                  [(backend, NoResponse, 10); (newcomer, Responded 200, 11)]
                  ∅)).
  vm_compute. intros H. repeat (apply elem_of_cons in H as [H|H]; [done|]).
  by apply elem_of_nil in H.
Defined.

Lemma filter_length_Permutation {A} (f : A → bool) (l l' : list A) :
  l ≡ₚ l' → length (List.filter f l) = length (List.filter f l').
Proof.
  induction 1 as [|x l l' _ IH|x y l|l l' l'' _ IH1 _ IH2]; simpl.
  - done.
  - destruct (f x); simpl; lia.
  - destruct (f x), (f y); simpl; lia.
  - lia.
Qed.

Lemma failed_round_counts cs sh service :
  (∀ c, c ∈ cs → c.1.1 = service → checkServiceHealth c.1.2 = false) →
  consecutiveFailures
    (default fresh (performHealthChecks cs sh !! service))
  = consecutiveFailures (default fresh (sh !! service))
    + Z.of_nat (length (List.filter (fun x => bool_decide (x = service))
                          cs.*1.*1)).
Proof.
  revert sh. induction cs as [|c cs IH]; intros sh Hfail.
  { simpl. lia. }
  rewrite performHealthChecks_cons, IH.
  2:{ intros c' Hin. apply Hfail. by right. }
  rewrite !fmap_cons. cbn [List.filter]. case_bool_decide as Hc.
  - rewrite Hc, updateServiceHealth_lookup. cbn [from_option id].
    rewrite (Hfail c); [|left|done].
    destruct (check_record_failure c.2 (default fresh (sh !! service)))
      as [-> _].
    cbn [length]. lia.
  - rewrite updateServiceHealth_lookup_ne; [done|].
    intros ->. by apply Hc.
Qed.

Lemma failing_round_flag cs sh service :
  (∀ c, c ∈ cs → c.1.1 = service → checkServiceHealth c.1.2 = false) →
  service ∈ cs.*1.*1 →
  3 ≤ consecutiveFailures
        (default fresh (performHealthChecks cs sh !! service)) →
  healthy (default fresh (performHealthChecks cs sh !! service)) = false.
Proof.
  revert sh. induction cs as [|c cs IH]; intros sh Hfail Hin Hthree.
  { by apply elem_of_nil in Hin. }
  rewrite performHealthChecks_cons in Hthree |- *.
  destruct (decide (service ∈ cs.*1.*1)) as [Hlater|Hlast].
  - apply IH; [|done..]. intros c' Hc'. apply Hfail. by right.
  - rewrite !fmap_cons in Hin. apply elem_of_cons in Hin as [Hc|Hin]; [|done].
    rewrite performHealthChecks_unprobed in Hthree |- * by done.
    subst service.
    assert (checkServiceHealth c.1.2 = false) as Hf
      by (apply Hfail; [left|done]).
    rewrite updateServiceHealth_lookup, Hf in Hthree |- *.
    cbn [from_option id] in Hthree |- *.
    destruct (check_record_failure c.2 (default fresh (sh !! c.1.1)))
      as [Hn ->].
    rewrite Hn in Hthree. destruct (3 <=? _) eqn:E; [done|].
    apply Z.leb_gt in E. lia.
Qed.

(** X2: an endpoint that is listed under [k] routes is probed [k] times in
    one round, and when all its probes of the round fail its failure
    counter goes up by [k]: a counter that was not negative and [k] of 3 or
    more mark it unhealthy within a single round. *)
Theorem shared_endpoint_counts_every_listing routes cs sh service :
  cs.*1.*1 ≡ₚ scheduled routes →
  (∀ c, c ∈ cs → c.1.1 = service → checkServiceHealth c.1.2 = false) →
  let k := length (List.filter (fun x => bool_decide (x = service))
                     (scheduled routes)) in
  let before := consecutiveFailures (default fresh (sh !! service)) in
  consecutiveFailures (default fresh (performHealthChecks cs sh !! service))
  = before + Z.of_nat k ∧
  (0 ≤ before → (3 ≤ k)%nat →
   flag service (performHealthChecks cs sh) = Some false).
Proof.
  intros Hperm Hfail k before.
  assert (length (List.filter (fun x => bool_decide (x = service)) cs.*1.*1)
          = k) as Hk.
  { subst k. apply filter_length_Permutation, Hperm. }
  pose proof (failed_round_counts cs sh service Hfail) as Hcount.
  rewrite Hk in Hcount. fold before in Hcount. split; [done|].
  intros Hpos Hthree.
  assert (service ∈ cs.*1.*1) as Hin.
  { destruct (List.filter (fun x => bool_decide (x = service)) cs.*1.*1)
      as [|x rest] eqn:E; [simpl in Hk; lia|].
    assert (In x (List.filter (fun x => bool_decide (x = service)) cs.*1.*1))
      as Hx by (rewrite E; by left).
    apply filter_In in Hx as [Hx Heq]. apply bool_decide_eq_true in Heq.
    subst x. by apply list_elem_of_In. }
  pose proof (failing_round_flag cs sh service Hfail Hin) as Hflag.
  unfold flag. destruct (performHealthChecks cs sh !! service) as [r|] eqn:E.
  - cbn [from_option id] in *. cbn. f_equal. apply Hflag. lia.
  - cbn [from_option id] in *. simpl in Hcount. lia.
Qed.

Lemma shared_endpoint_counts_every_listing_witness :
  flag backend
    (performHealthChecks
       [(backend, NoResponse, 10); (backend, Responded 503, 11);
        (backend, Responded 404, 12)] ∅)
  = Some false.
Proof.
  apply (shared_endpoint_counts_every_listing
           [("/users", [backend]); ("/orders", [backend]);
            ("/stats", [backend])]
           [(backend, NoResponse, 10); (backend, Responded 503, 11);
            (backend, Responded 404, 12)] ∅ backend).
  - reflexivity.
  - intros c Hc _.
    repeat (apply elem_of_cons in Hc as [->|Hc]; [reflexivity|]).
    by apply elem_of_nil in Hc.
  - vm_compute. discriminate.
  - vm_compute. lia.
Defined.

Lemma performHealthChecks_counted cs sh :
  (∀ service h, sh !! service = Some h → counted h) →
  ∀ service h, performHealthChecks cs sh !! service = Some h → counted h.
Proof.
  revert sh. induction cs as [|c cs IH]; intros sh Hall; [done|].
  rewrite performHealthChecks_cons. apply IH. intros service h.
  destruct (decide (service = c.1.1)) as [->|Hne].
  - rewrite updateServiceHealth_lookup. intros [= <-].
    apply counted_check_record.
    destruct (sh !! c.1.1) as [h0|] eqn:E; simpl.
    + by apply (Hall c.1.1).
    + apply counted_fresh.
  - rewrite updateServiceHealth_lookup_ne by done. apply Hall.
Qed.

(** X3: as long as records are written by [initHealthChecker] and by check
    results only, the healthy flag of every record says exactly whether its
    failure counter is below 3, and the counter is never negative. *)
Theorem flag_follows_counter routes cs service h :
  performHealthChecks cs (initHealthChecker routes ∅) !! service = Some h →
  0 ≤ consecutiveFailures h ∧ healthy h = (consecutiveFailures h <? 3).
Proof.
  intros Hrec.
  assert (counted h) as [Hpos Hflag].
  { apply (performHealthChecks_counted cs (initHealthChecker routes ∅))
      with service; [|done].
    intros s h0. rewrite initHealthChecker_lookup, lookup_empty.
    case_bool_decide; [|done]. intros [= <-]. apply counted_fresh. }
  split; [done|]. destruct (healthy h); symmetry.
  - apply Z.ltb_lt. lia.
  - apply Z.ltb_ge. lia.
Qed.

Lemma flag_follows_counter_witness :
  ∃ h, performHealthChecks
         [(backend, NoResponse, 10); (backend, Responded 200, 20)]
         (initHealthChecker [("/users", [backend])] ∅) !! backend = Some h ∧
       healthy h = (consecutiveFailures h <? 3).
Proof.
  eexists. split; [reflexivity|].
  eapply (proj2 (flag_follows_counter [("/users", [backend])]
                   [(backend, NoResponse, 10); (backend, Responded 200, 20)]
                   backend _ _)).
  Unshelve. reflexivity.
Defined.

Lemma filter_length_all {A} (f : A → bool) (l : list A) :
  (length (List.filter f l) ≤ length l)%nat ∧
  (length (List.filter f l) = length l ↔ ∀ x, x ∈ l → f x = true) ∧
  (length (List.filter f l) = 0%nat ↔ ∀ x, x ∈ l → f x = false).
Proof.
  induction l as [|x l (IHle & IHall & IHnone)]; simpl.
  - split; [lia|]. split; (split; [intros _ x Hx; by apply elem_of_nil in Hx|done]).
  - destruct (f x) eqn:E; simpl.
    + split; [lia|]. split; split.
      * intros Hlen y [->|Hy]%elem_of_cons; [done|].
        apply IHall; [lia|done].
      * intros Hall. f_equal. apply IHall. intros y Hy. apply Hall. by right.
      * lia.
      * intros Hnone. specialize (Hnone x). rewrite E in Hnone.
        discriminate Hnone. left.
    + split; [lia|]. split; split.
      * lia.
      * intros Hall. specialize (Hall x). rewrite E in Hall.
        discriminate Hall. left.
      * intros Hlen y [->|Hy]%elem_of_cons; [done|]. by apply IHnone.
      * intros Hnone. apply IHnone. intros y Hy. apply Hnone. by right.
Qed.

Lemma filter_length_short {A} (f : A → bool) (l : list A) :
  length (List.filter f l) ≠ length l → ∃ x, x ∈ l ∧ f x = false.
Proof.
  induction l as [|x l IH]; simpl; [done|].
  destruct (f x) eqn:E; simpl.
  - intros Hlen. destruct IH as (y & Hy & Hf); [lia|].
    exists y. split; [by right|done].
  - intros _. exists x. split; [left|done].
Qed.

Lemma elem_of_getHealthStatus sh (e : status_entry) :
  e ∈ getHealthStatus sh ↔
  ∃ service h, sh !! service = Some h ∧
    e = {| entry_service := service; entry_healthy := healthy h;
           entry_lastChecked := lastChecked h;
           entry_consecutiveFailures := consecutiveFailures h;
           entry_lastFailureTime := lastFailureTime h |}.
Proof.
  unfold getHealthStatus. rewrite list_elem_of_fmap. split.
  - intros [[service h] [-> Hin]]. exists service, h.
    split; [by apply elem_of_map_to_list|done].
  - intros (service & h & Hrec & ->). exists (service, h).
    split; [done|]. by apply elem_of_map_to_list.
Qed.

(** X4: the summary counts every record once; it reads "healthy" exactly
    when no record is unhealthy (so also for an empty registry), "down"
    exactly when there are records and none is healthy, and "degraded"
    exactly when healthy and unhealthy records are both present. *)
Theorem health_summary_classifies sh :
  let s := getHealthSummary sh in
  totalServices s = size sh ∧
  (healthyServices s ≤ totalServices s)%nat ∧
  (overallHealth s = "healthy"
   ↔ ∀ service h, sh !! service = Some h → healthy h = true) ∧
  (overallHealth s = "down"
   ↔ sh ≠ ∅ ∧ ∀ service h, sh !! service = Some h → healthy h = false) ∧
  (overallHealth s = "degraded"
   ↔ (∃ service h, sh !! service = Some h ∧ healthy h = true) ∧
     (∃ service h, sh !! service = Some h ∧ healthy h = false)).
Proof.
  cbv zeta. unfold getHealthSummary. cbn [totalServices healthyServices overallHealth].
  set (status := getHealthStatus sh).
  destruct (filter_length_all entry_healthy status) as (Hle & Hall & Hnone).
  assert (length status = size sh) as Hsize.
  { subst status. unfold getHealthStatus.
    by rewrite length_fmap, length_map_to_list. }
  assert ((∀ e, e ∈ status → entry_healthy e = true)
          ↔ ∀ service h, sh !! service = Some h → healthy h = true) as Hall'.
  { split.
    - intros H service h Hrec.
      apply (H {| entry_service := service; entry_healthy := healthy h;
                  entry_lastChecked := lastChecked h;
                  entry_consecutiveFailures := consecutiveFailures h;
                  entry_lastFailureTime := lastFailureTime h |}).
      apply elem_of_getHealthStatus. by exists service, h.
    - intros H e (service & h & Hrec & ->)%elem_of_getHealthStatus.
      by apply (H service). }
  assert ((∀ e, e ∈ status → entry_healthy e = false)
          ↔ ∀ service h, sh !! service = Some h → healthy h = false) as Hnone'.
  { split.
    - intros H service h Hrec.
      apply (H {| entry_service := service; entry_healthy := healthy h;
                  entry_lastChecked := lastChecked h;
                  entry_consecutiveFailures := consecutiveFailures h;
                  entry_lastFailureTime := lastFailureTime h |}).
      apply elem_of_getHealthStatus. by exists service, h.
    - intros H e (service & h & Hrec & ->)%elem_of_getHealthStatus.
      by apply (H service). }
  assert (sh ≠ ∅ ↔ length status ≠ 0%nat) as Hne.
  { rewrite Hsize. split; intros H Hz; apply H.
    - by apply map_size_empty_iff.
    - subst sh. apply map_size_empty. }
  split; [done|]. split; [done|].
  rewrite <- Hall', <- Hnone'. clear Hall' Hnone'.
  destruct (length (List.filter entry_healthy status) =? length status)%nat
    eqn:Eall.
  { apply Nat.eqb_eq in Eall. split; [split; [intros _; by apply Hall|done]|].
    split; split; try discriminate.
    - intros [Hnonempty Hno]. apply Hnone in Hno. apply Hne in Hnonempty. lia.
    - intros [_ (service & h & Hrec & Hbad)].
      assert (healthy h = true); [|congruence].
      destruct Hall as [Hall _]. specialize (Hall Eall).
      specialize (Hall {| entry_service := service; entry_healthy := healthy h;
                  entry_lastChecked := lastChecked h;
                  entry_consecutiveFailures := consecutiveFailures h;
                  entry_lastFailureTime := lastFailureTime h |}).
      apply Hall, elem_of_getHealthStatus. by exists service, h. }
  apply Nat.eqb_neq in Eall.
  destruct (0 <? length (List.filter entry_healthy status))%nat eqn:Esome.
  - apply Nat.ltb_lt in Esome. split.
    { split; [discriminate|]. intros H. apply Hall in H. lia. }
    split.
    { split; [discriminate|]. intros [_ H]. apply Hnone in H. lia. }
    split; [intros _|done]. split.
    + destruct (List.filter entry_healthy status) as [|e rest] eqn:E;
        [simpl in Esome; lia|].
      assert (In e (List.filter entry_healthy status)) as He
        by (rewrite E; by left).
      apply filter_In in He as [He Hh]. apply list_elem_of_In in He.
      apply elem_of_getHealthStatus in He as (service & h & Hrec & ->).
      by exists service, h.
    + destruct (filter_length_short entry_healthy status Eall)
        as (e & He & Hbad).
      apply elem_of_getHealthStatus in He as (service & h & Hrec & ->).
      by exists service, h.
  - apply Nat.ltb_ge in Esome. split.
    { split; [discriminate|]. intros H. apply Hall in H. lia. }
    split.
    { split; [intros _|done]. split; [apply Hne; lia|apply Hnone; lia]. }
    split; [discriminate|].
    intros [(service & h & Hrec & Hgood) _].
    assert (healthy h = false); [|congruence].
    destruct Hnone as [Hnone _].
    specialize (Hnone ltac:(lia)
                  {| entry_service := service; entry_healthy := healthy h;
                  entry_lastChecked := lastChecked h;
                  entry_consecutiveFailures := consecutiveFailures h;
                  entry_lastFailureTime := lastFailureTime h |}).
    apply Hnone, elem_of_getHealthStatus. by exists service, h.
Qed.

End health_rounds.

(** ** Load balancer: weighted selection and connection counts *)

Section load_balancer_more.
Import LoadBalancer.

Implicit Types (ws : list Z) (ac : gmap string (gmap string Z)).

Lemma weighted_scan_position random ws i0 i :
  weighted_scan random ws i0 = Some i →
  (i0 ≤ i < i0 + length ws)%nat.
Proof.
  revert random i0. induction ws as [|w ws IH]; intros random i0; [done|].
  cbn [weighted_scan length].
  destruct (SFleb (SFsub prec emax random (number w)) zero).
  - intros [= <-]. lia.
  - intros Hscan%IH. lia.
Qed.

Lemma getNextTargetWeighted_cached path services serviceWeights u
    (weights : gmap string (list Z)) ws :
  weights !! path = Some ws →
  getNextTargetWeighted path services serviceWeights u weights
  = (match weighted_scan
             (SFmul prec emax (Math_random u) (total_weight ws)) ws 0 with
     | Some i => services !! i
     | None => services !! 0%nat
     end, weights).
Proof.
  unfold getNextTargetWeighted.
  destruct (weights !! path) as [ws'|] eqn:E; [|done].
  intros [= ->]. by rewrite E.
Qed.

(** The product [Math.random() * totalWeight] is a double: with the weights
    4 and 1 and the draw 3602879701896397 / 2^52, just above 4/5, it is
    4 + 2^-52 rounded to 4, and the first service is returned. *)
Lemma weighted_product_is_rounded :
  (getNextTargetWeighted "/users" [first_backend; second_backend]
     {[first_backend := 4]} (Draw 3602879701896397 900719925474098) ∅).1
  = Some first_backend.
Proof. by vm_compute. Qed.

(** X5: the weights of a path are fixed by the first call for it: every
    later call uses them, whatever weights and services it is given, and
    leaves them as they are. A later call therefore returns a service only
    from a position that got a weight in the first call, or the first
    service: a service added to the list at a later position is never
    chosen. *)
Theorem weighted_selection_uses_first_weights
    path services0 weights0 u0 services serviceWeights u weights :
  let first := getNextTargetWeighted path services0 weights0 u0 weights in
  let result := getNextTargetWeighted path services serviceWeights u first.2 in
  let ws := default [] (first.2 !! path) in
  (weights !! path = None →
     ws = List.map (weight_or_one weights0) services0) ∧
  result.2 = first.2 ∧
  (∀ other, (getNextTargetWeighted path services other u first.2).1
            = result.1) ∧
  (∀ s, result.1 = Some s →
     ∃ i, services !! i = Some s ∧ (i < Nat.max 1 (length ws))%nat).
Proof.
  cbv zeta.
  set (first := getNextTargetWeighted path services0 weights0 u0 weights).
  assert (∃ ws, first.2 !! path = Some ws ∧
                (weights !! path = None →
                 ws = List.map (weight_or_one weights0) services0))
    as (ws & Hws & Hfresh).
  { subst first. unfold getNextTargetWeighted. cbn [snd].
    destruct (weights !! path) as [ws|] eqn:E.
    - exists ws. split; [done|]. discriminate.
    - eexists. split; [apply lookup_insert_eq|done]. }
  rewrite Hws. cbn [from_option id]. clearbody first.
  split; [done|].
  rewrite !(getNextTargetWeighted_cached path services _ u _ ws Hws).
  cbn [fst snd]. split; [done|]. split.
  { intros other.
    by rewrite (getNextTargetWeighted_cached path services _ u _ ws Hws). }
  intros s.
  destruct (weighted_scan _ ws 0) as [i|] eqn:E.
  - apply weighted_scan_position in E. intros Hs. exists i. split; [done|]. lia.
  - intros Hs. exists 0%nat. split; [done|]. lia.
Qed.

Lemma weighted_selection_uses_first_weights_witness :
  let first :=
    getNextTargetWeighted "/users" [first_backend]
      {[first_backend := 3]} (Draw 0 0) ∅ in
  first.2 !! "/users" = Some [3] ∧
  ∀ u, (getNextTargetWeighted "/users" [first_backend; second_backend]
          {[second_backend := 5]} u first.2).1 = Some first_backend.
Proof.
  intros first. split; [reflexivity|]. intros u.
  destruct (weighted_selection_uses_first_weights
              "/users" [first_backend] {[first_backend := 3]} (Draw 0 0)
              [first_backend; second_backend] {[second_backend := 5]} u ∅)
    as (_ & _ & _ & Hpick).
  fold first in Hpick.
  destruct (getNextTargetWeighted "/users" [first_backend; second_backend]
              {[second_backend := 5]} u first.2) as [[s|] weights'] eqn:E.
  - destruct (Hpick s eq_refl) as (i & Hi & Hlt).
    assert (i = 0%nat) as -> by (vm_compute in Hlt; lia).
    cbn [fst]. by rewrite <-Hi.
  - exfalso.
    rewrite (getNextTargetWeighted_cached _ _ _ _ _ [3]) in E by reflexivity.
    destruct (weighted_scan _ [3] 0) as [i|] eqn:Escan.
    + apply weighted_scan_position in Escan. cbn [length] in Escan.
      assert (i = 0%nat) as -> by lia. discriminate E.
    + discriminate E.
Defined.

Lemma active_increment path target ac :
  active path target (incrementConnections path target ac)
  = Some (default 0 (active path target ac) + 1).
Proof.
  unfold active, incrementConnections. rewrite lookup_insert_eq. simpl.
  rewrite lookup_insert_eq. by destruct (ac !! path).
Qed.

Lemma active_increment_other path target p t ac :
  (p, t) ≠ (path, target) →
  active p t (incrementConnections path target ac) = active p t ac.
Proof.
  intros Hne. unfold active, incrementConnections.
  destruct (decide (p = path)) as [->|Hp].
  - rewrite lookup_insert_eq. simpl. rewrite lookup_insert_ne by congruence.
    by destruct (ac !! path).
  - by rewrite lookup_insert_ne.
Qed.

Lemma active_decrement path target ac :
  active path target (decrementConnections path target ac)
  = (fun v => v - 1) <$> active path target ac.
Proof.
  unfold active, decrementConnections.
  destruct (ac !! path) as [conns|] eqn:E; simpl; [|by rewrite E].
  destruct (conns !! target) as [v|] eqn:Et; simpl.
  - rewrite lookup_insert_eq. simpl. by rewrite lookup_insert_eq.
  - rewrite E. simpl. by rewrite Et.
Qed.

Lemma active_decrement_other path target p t ac :
  (p, t) ≠ (path, target) →
  active p t (decrementConnections path target ac) = active p t ac.
Proof.
  intros Hne. unfold active, decrementConnections.
  destruct (ac !! path) as [conns|] eqn:E; [|done].
  destruct (conns !! target) as [v|] eqn:Et; [|done].
  destruct (decide (p = path)) as [->|Hp].
  - rewrite lookup_insert_eq, E. simpl. by rewrite lookup_insert_ne by congruence.
  - by rewrite lookup_insert_ne.
Qed.

(** X6: [incrementConnections] raises the count of its path and target by
    one, starting from 0 when there was none; [decrementConnections] lowers
    a recorded count by one, with no floor at zero, and does nothing at all
    when the path or the target has no count; so a decrement after an
    increment restores the count, and neither touches any other count. *)
Theorem connection_counting_pairs_up path target ac :
  active path target (incrementConnections path target ac)
  = Some (default 0 (active path target ac) + 1) ∧
  active path target
    (decrementConnections path target (incrementConnections path target ac))
  = Some (default 0 (active path target ac)) ∧
  active path target (decrementConnections path target ac)
  = (fun v => v - 1) <$> active path target ac ∧
  (active path target ac = None → decrementConnections path target ac = ac) ∧
  (∀ p t, (p, t) ≠ (path, target) →
     active p t (incrementConnections path target ac) = active p t ac ∧
     active p t (decrementConnections path target ac) = active p t ac).
Proof.
  split; [apply active_increment|]. split.
  { rewrite active_decrement, active_increment. simpl. f_equal. lia. }
  split; [apply active_decrement|]. split.
  - unfold active, decrementConnections.
    destruct (ac !! path) as [conns|]; simpl; [|done]. by intros ->.
  - intros p t Hne.
    split; [by apply active_increment_other|by apply active_decrement_other].
Qed.

Lemma connection_counting_pairs_up_witness :
  active "/users" first_backend
    (decrementConnections "/users" first_backend
       (decrementConnections "/users" first_backend
          (incrementConnections "/users" first_backend ∅)))
  = Some (-1).
Proof.
  destruct (connection_counting_pairs_up "/users" first_backend
              (decrementConnections "/users" first_backend
                 (incrementConnections "/users" first_backend ∅)))
    as (_ & _ & -> & _).
  reflexivity.
Defined.

(** X7: once counts exist for a path, least-connections selection never
    returns an endpoint that has no count there. After the first dispatch
    recorded by [incrementConnections] on a path without counts, the only
    endpoint it can return is the one that was dispatched, whatever list it
    is given and whatever [Math.random()] yields. *)
Theorem least_connections_skips_uncounted path services u ac target :
  (∀ conns, ac !! path = Some conns → conns !! target = None →
     (getNextTargetLeastConnections path services u ac).1 ≠ Some target) ∧
  (ac !! path = None →
   ∀ dispatched,
     (getNextTargetLeastConnections path services u
        (incrementConnections path dispatched ac)).1 = Some target →
     target = dispatched).
Proof.
  assert (∀ ac' conns, ac' !! path = Some conns → conns !! target = None →
            (getNextTargetLeastConnections path services u ac').1
            ≠ Some target) as Hskip.
  { intros ac' conns Hconns Hnone Hres.
    destruct (getNextTargetLeastConnections path services u ac')
      as [res ac''] eqn:E.
    simpl in Hres. subst res.
    pose proof E as Hstate. unfold getNextTargetLeastConnections in Hstate.
    rewrite Hconns in Hstate. injection Hstate as _ <-.
    apply least_connections_returned_is_least in E as (_ & m & Hm & _).
    rewrite Hconns in Hm. simpl in Hm. congruence. }
  split; [apply Hskip|].
  intros Hnew dispatched Hres.
  destruct (decide (target = dispatched)) as [|Hne]; [done|]. exfalso.
  eapply (Hskip (incrementConnections path dispatched ac)); [| |exact Hres].
  - unfold incrementConnections. apply lookup_insert_eq.
  - rewrite Hnew. simpl. rewrite lookup_insert_ne by done. apply lookup_empty.
Qed.

Lemma least_connections_skips_uncounted_witness :
  (getNextTargetLeastConnections "/users" [first_backend; second_backend]
     (Draw 1 0) (incrementConnections "/users" first_backend ∅)).1
  ≠ Some second_backend.
Proof.
  intros H.
  pose proof (proj2 (least_connections_skips_uncounted
                       "/users" [first_backend; second_backend] (Draw 1 0)
                       ∅ second_backend) eq_refl first_backend H) as Heq.
  discriminate Heq.
Defined.

End load_balancer_more.

(** ** Rate limiter: bounds, independence of clients, the window guarantee *)

Section rate_limiter_more.
Import RateLimiter.

Implicit Types (sw : gmap string (list Z)) (w times : list Z).

(** X8: a window never grows beyond its limit: after a request the IP
    window (and the user window of an authenticated request) is no longer
    than the larger of its length before and the limit; an admitted request
    is answered with the IP limit and with a remaining count that is the
    limit minus the requests now in the IP window, between 0 and the limit
    minus one. *)
Theorem rate_window_stays_within_limit ipLimit userLimit W req now sw :
  let ipKey := "ip:" +:+ ip req in
  let result := rateLimiter ipLimit userLimit W req now sw in
  Z.of_nat (length (window_of ipKey result.2))
  ≤ Z.max (Z.of_nat (length (window_of ipKey sw))) ipLimit ∧
  (∀ uid, authenticated_user req = Some uid →
     Z.of_nat (length (window_of ("user:" +:+ uid) result.2))
     ≤ Z.max (Z.of_nat (length (window_of ("user:" +:+ uid) sw))) userLimit) ∧
  (∀ limit remaining, result.1 = Next limit remaining →
     limit = ipLimit ∧
     remaining = ipLimit - Z.of_nat (length (window_of ipKey result.2)) ∧
     0 ≤ remaining < ipLimit).
Proof.
  cbv zeta.
  pose proof (rateLimiter_ip_window ipLimit userLimit W req now sw)
    as [Hadmit Hreject].
  cbv zeta in Hadmit, Hreject.
  pose proof (shift_stale_length now W (window_of ("ip:" +:+ ip req) sw))
    as Hkept.
  split.
  { destruct (admitted (rateLimiter ipLimit userLimit W req now sw).1) eqn:E.
    - destruct (Hadmit eq_refl) as [Hlt ->]. rewrite length_app. simpl. lia.
    - rewrite (Hreject eq_refl). lia. }
  split.
  { intros uid Hu.
    pose proof (rateLimiter_user_window ipLimit userLimit W req now sw uid Hu)
      as [Huadmit Hureject].
    cbv zeta in Huadmit, Hureject.
    pose proof (shift_stale_length now W (window_of ("user:" +:+ uid) sw)).
    destruct (admitted (rateLimiter ipLimit userLimit W req now sw).1) eqn:E.
    - destruct (Huadmit eq_refl) as [Hlt ->]. rewrite length_app. simpl. lia.
    - destruct (Hureject eq_refl) as [-> | ->]; lia. }
  intros limit remaining Hnext.
  assert (admitted (rateLimiter ipLimit userLimit W req now sw).1 = true)
    as Hyes by (by rewrite Hnext).
  destruct (Hadmit Hyes) as [Hlt Hwin]. rewrite Hwin.
  revert Hnext. unfold rateLimiter.
  destruct (ipLimit <=? _); [done|].
  destruct (authenticated_user req) as [uid|]; cbn [fst].
  - match goal with
    | |- context [userLimit <=? ?n] => destruct (userLimit <=? n)
    end; [done|].
    cbn [fst]. intros [= <- <-]. rewrite !length_app. simpl. lia.
  - intros [= <- <-]. rewrite !length_app. simpl. lia.
Qed.

(** X9: a request changes no window but its own: every key of the
    registry other than the request's IP key and, for an authenticated
    request, its user key is left exactly as it was. A request without an
    authenticated user therefore never creates or changes a user window. *)
Theorem rate_limit_touches_own_windows_only
    ipLimit userLimit W req now sw key :
  key ≠ "ip:" +:+ ip req →
  (∀ uid, authenticated_user req = Some uid → key ≠ "user:" +:+ uid) →
  (rateLimiter ipLimit userLimit W req now sw).2 !! key = sw !! key.
Proof.
  intros Hip Huser. unfold rateLimiter.
  destruct (ipLimit <=? _); cbn [snd].
  { by rewrite lookup_insert_ne. }
  destruct (authenticated_user req) as [uid|]; cbn [snd].
  - specialize (Huser uid eq_refl).
    match goal with
    | |- context [userLimit <=? ?n] => destruct (userLimit <=? n)
    end; cbn [snd]; by rewrite !lookup_insert_ne.
  - by rewrite !lookup_insert_ne.
Qed.

Lemma rate_limit_touches_own_windows_only_witness :
  (rateLimiter 100 200 60000 {| ip := "10.0.0.7"; userId := None |} 5 ∅).2
    !! "user:alice" = None.
Proof.
  rewrite (rate_limit_touches_own_windows_only
             100 200 60000 {| ip := "10.0.0.7"; userId := None |} 5 ∅
             "user:alice").
  - reflexivity.
  - discriminate.
  - intros uid Hu. discriminate Hu.
Defined.

Lemma chronological_app_r (a b : list Z) :
  chronological (a ++ b) = true → chronological b = true.
Proof.
  induction a as [|x a IH]; [done|]. intros H.
  apply IH. by destruct (chronological_cons _ _ H).
Qed.

Lemma count_in_window_app W t (a b : list Z) :
  count_in_window W t (a ++ b)
  = (count_in_window W t a + count_in_window W t b)%nat.
Proof. unfold count_in_window. by rewrite List.filter_app, length_app. Qed.

Lemma count_in_window_le_length W t (a : list Z) :
  (count_in_window W t a ≤ length a)%nat.
Proof. unfold count_in_window. apply filter_length_le. Qed.

Lemma count_in_window_outside W t (a : list Z) :
  (∀ x, x ∈ a → x < t - W) → count_in_window W t a = 0%nat.
Proof.
  intros Hout. unfold count_in_window.
  induction a as [|x a IH]; [done|]. simpl.
  assert (x < t - W) as Hx by (apply Hout; left).
  destruct (t - W <=? x) eqn:E; [apply Z.leb_le in E; lia|]. simpl.
  apply IH. intros y Hy. apply Hout. by right.
Qed.

(** The run of an anonymous client, started from a window that is what is
    left of the admitted timestamps [past]. *)
Lemma serve_keeps_window_guarantee ipLimit userLimit W req times :
  authenticated_user req = None →
  ∀ sw past dropped,
    past = dropped ++ window_of ("ip:" +:+ ip req) sw →
    chronological past = true →
    chronological times = true →
    (∀ p t, p ∈ past → t ∈ times → p ≤ t) →
    (∀ d t, d ∈ dropped → t ∈ times → d < t - W) →
    (∀ t, Z.of_nat (count_in_window W t past) ≤ Z.max 0 ipLimit) →
    ∀ t, Z.of_nat
           (count_in_window W t
              (past ++ admitted_times times
                         (serve ipLimit userLimit W req times sw).1))
         ≤ Z.max 0 ipLimit.
Proof.
  intros Hanon. set (ipKey := "ip:" +:+ ip req).
  induction times as [|now rest IH];
    intros sw past dropped Hpast Hchron Htimes Hbefore Hdropped Hbound t.
  { simpl. rewrite app_nil_r. apply Hbound. }
  destruct (chronological_cons _ _ Htimes) as [Hrest Hnow].
  rewrite Forall_forall in Hnow.
  cbn [serve]. rewrite rateLimiter_anonymous by done. fold ipKey.
  set (w := window_of ipKey sw) in *.
  destruct (shift_stale_split now W w) as (stale & Hsplit & Hstale).
  rewrite Forall_forall in Hstale.
  set (kept := shift_stale now W w) in *.
  assert (∀ d t', d ∈ dropped ++ stale → t' ∈ rest → d < t' - W) as Hdropped'.
  { intros d t' [Hd|Hd]%elem_of_app Ht'.
    - apply Hdropped; [done|by right].
    - specialize (Hstale d Hd). specialize (Hnow t' Ht'). lia. }
  destruct (ipLimit <=? Z.of_nat (length kept)) eqn:E.
  - specialize (IH (<[ipKey := kept]> sw) past (dropped ++ stale)).
    rewrite window_of_insert in IH.
    destruct (serve ipLimit userLimit W req rest (<[ipKey := kept]> sw))
      as [ds sw2].
    cbn [fst snd admitted admitted_times] in *. apply IH; try done.
    + rewrite Hpast, Hsplit. by rewrite app_assoc.
    + intros p t' Hp Ht'. apply Hbefore; [done|by right].
  - apply Z.leb_gt in E.
    specialize (IH (<[ipKey := kept ++ [now]]> sw) (past ++ [now])
                  (dropped ++ stale)).
    rewrite window_of_insert in IH.
    destruct (serve ipLimit userLimit W req rest
                (<[ipKey := kept ++ [now]]> sw)) as [ds sw2].
    cbn [fst snd admitted admitted_times] in *.
    replace (past ++ now :: admitted_times rest ds)
      with ((past ++ [now]) ++ admitted_times rest ds)
      by (by rewrite <- app_assoc).
    apply IH; try done.
    + rewrite Hpast, Hsplit. by rewrite !app_assoc.
    + apply chronological_snoc; [done|]. apply Forall_forall.
      intros p Hp. apply Hbefore; [done|left].
    + intros p t' [Hp| ->%list_elem_of_singleton]%elem_of_app Ht'.
      * apply Hbefore; [done|by right].
      * by apply Hnow.
    + intros t'. rewrite count_in_window_app.
      unfold count_in_window at 2. cbn [List.filter].
      destruct ((t' - W <=? now) && (now <=? t')) eqn:Ein; cbn [length].
      2:{ specialize (Hbound t'). lia. }
      apply andb_true_iff in Ein as [Hlo Hhi].
      apply Z.leb_le in Hlo, Hhi.
      assert (past = (dropped ++ stale) ++ kept) as ->
        by (rewrite Hpast, Hsplit; by rewrite app_assoc).
      rewrite count_in_window_app, count_in_window_outside.
      * pose proof (count_in_window_le_length W t' kept). lia.
      * intros d [Hd|Hd]%elem_of_app.
        -- specialize (Hdropped d now Hd ltac:(left)). lia.
        -- specialize (Hstale d Hd). lia.
Qed.

(** X10: the guarantee of the sliding window. For an anonymous client
    whose window starts empty and whose requests arrive in order of time,
    whatever the pattern of its requests, no window of length [W] ever
    contains more admitted requests than the IP limit. *)
Theorem admitted_requests_respect_every_window
    ipLimit userLimit W req times sw t :
  authenticated_user req = None →
  window_of ("ip:" +:+ ip req) sw = [] →
  chronological times = true →
  Z.of_nat
    (count_in_window W t
       (admitted_times times (serve ipLimit userLimit W req times sw).1))
  ≤ Z.max 0 ipLimit.
Proof.
  intros Hanon Hempty Htimes.
  apply (serve_keeps_window_guarantee ipLimit userLimit W req times Hanon
           sw [] []).
  - by rewrite Hempty.
  - done.
  - done.
  - intros p t' Hp. by apply elem_of_nil in Hp.
  - intros d t' Hd. by apply elem_of_nil in Hd.
  - intros t'. unfold count_in_window. simpl. lia.
Qed.

Lemma admitted_requests_respect_every_window_witness :
  let client := {| ip := "10.0.0.7"; userId := None |} in
  let times := [0; 10; 20; 30; 60005; 60015; 60016] in
  admitted_times times (serve 2 200 60000 client times ∅).1
  = [0; 10; 60005; 60015] ∧
  Z.of_nat
    (count_in_window 60000 60015
       (admitted_times times (serve 2 200 60000 client times ∅).1))
  ≤ 2.
Proof.
  intros client times. split; [reflexivity|].
  apply (admitted_requests_respect_every_window 2 200 60000 client times ∅
           60015); reflexivity.
Defined.

(** X11: [slidingWindowLimiter] and [userBasedLimiter] apply the same
    window rule as [rateLimiter]. On a request without an authenticated
    user, [slidingWindowLimiter] decides as [rateLimiter] does and leaves
    the same window, kept under the key [req.ip] instead of ["ip:" + req.ip],
    and [userBasedLimiter] is [slidingWindowLimiter]. On an authenticated
    request [userBasedLimiter] admits exactly when the pruned user window is
    below the limit and changes no key but the user's. *)
Theorem limiters_share_the_window_rule limit userLimit W req now sw1 sw2 :
  (authenticated_user req = None →
   window_of (ip req) sw1 = window_of ("ip:" +:+ ip req) sw2 →
   let plain := slidingWindowLimiter limit W req now sw1 in
   let combined := rateLimiter limit userLimit W req now sw2 in
   admitted plain.1 = admitted combined.1 ∧
   window_of (ip req) plain.2 = window_of ("ip:" +:+ ip req) combined.2 ∧
   userBasedLimiter limit W req now sw1 = plain) ∧
  (∀ uid, authenticated_user req = Some uid →
   let result := userBasedLimiter limit W req now sw1 in
   let kept := shift_stale now W (window_of ("user:" +:+ uid) sw1) in
   admitted result.1 = negb (limit <=? Z.of_nat (length kept)) ∧
   window_of ("user:" +:+ uid) result.2
   = (if admitted result.1 then kept ++ [now] else kept) ∧
   ∀ key, key ≠ "user:" +:+ uid → result.2 !! key = sw1 !! key).
Proof.
  split.
  - intros Hanon Hsame. cbv zeta.
    rewrite rateLimiter_anonymous by done. cbv zeta.
    unfold userBasedLimiter, slidingWindowLimiter. rewrite Hanon, Hsame.
    destruct (limit <=? _); cbn [fst snd admitted];
      by rewrite !window_of_insert.
  - intros uid Hu. cbv zeta. unfold userBasedLimiter. rewrite Hu.
    destruct (limit <=? _); cbn [fst snd admitted negb].
    + split; [done|]. split; [apply window_of_insert|].
      intros key Hne. by rewrite lookup_insert_ne.
    + split; [done|]. split; [apply window_of_insert|].
      intros key Hne. by rewrite !lookup_insert_ne.
Qed.

Lemma limiters_share_the_window_rule_witness :
  let client := {| ip := "10.0.0.7"; userId := None |} in
  admitted (slidingWindowLimiter 1 60000 client 7 {["10.0.0.7" := [5]]}).1
  = admitted (rateLimiter 1 200 60000 client 7 {["ip:10.0.0.7" := [5]]}).1.
Proof.
  intros client.
  apply (proj1 (limiters_share_the_window_rule
                  1 200 60000 client 7 {["10.0.0.7" := [5]]}
                  {["ip:10.0.0.7" := [5]]}));
    reflexivity.
Defined.

Lemma rate_window_stays_within_limit_witness :
  (rateLimiter 3 200 60000 {| ip := "10.0.0.7"; userId := None |} 5 ∅).1
  = Next 3 2.
Proof.
  destruct (rate_window_stays_within_limit
              3 200 60000 {| ip := "10.0.0.7"; userId := None |} 5 ∅)
    as (_ & _ & Hnext).
  destruct (Hnext 3 2 eq_refl) as (_ & _ & _). reflexivity.
Defined.

End rate_limiter_more.

(** ** Cache: consistency of the two maps, hits, and what a lookup touches *)

Section cache_more.
Import Cache.

Implicit Types (st : store) (req : request) (key url : string).

Lemma empty_store_consistent : store_consistent empty_store.
Proof. intros key. unfold empty_store. simpl. by rewrite !lookup_empty. Qed.

Lemma invalidateCache_consistent pattern st :
  store_consistent st → store_consistent (invalidateCache pattern st).
Proof.
  intros Hcons. unfold invalidateCache.
  destruct pattern as [p|]; [|apply empty_store_consistent].
  destruct (String.eqb p ""); [apply empty_store_consistent|].
  intros key.
  destruct (invalidate_loop_lookup p (map_to_list (cache st)).*1 st key)
    as [-> ->].
  destruct (_ && _); [|apply Hcons].
  split; intros [? ?]; discriminate.
Qed.

(** X12: the payload map and the metadata map always hold the same keys:
    the empty cache does, and storing a response, looking one up (with its
    eviction), invalidating by pattern or after a write, and clearing all
    keep it so. *)
Theorem cache_maps_hold_the_same_keys
    st req jsonType parsed cachedNow expiryNow now pattern :
  store_consistent empty_store ∧
  (store_consistent st →
   store_consistent
     (send_wrapper req jsonType parsed cachedNow expiryNow st).2 ∧
   store_consistent (cacheMiddleware req now st).2 ∧
   store_consistent (invalidateCache pattern st) ∧
   store_consistent (cacheInvalidationMiddleware req st) ∧
   store_consistent (clearCache st)).
Proof.
  pose proof empty_store_consistent as Hempty.
  split; [done|]. intros Hcons. split; [|split; [|split; [|split]]].
  - unfold send_wrapper. destruct jsonType; [|done].
    destruct parsed as [jsonData|]; [|done]. intros key. cbn [snd cache cacheMetadata].
    destruct (decide (key = originalUrl req)) as [->|Hne].
    + rewrite !lookup_insert_eq. split; intros _; by eexists.
    + rewrite !lookup_insert_ne by done. apply Hcons.
  - assert (store_consistent
              {| cache := delete (originalUrl req) (cache st);
                 cacheMetadata := delete (originalUrl req) (cacheMetadata st) |})
      as Hevicted.
    { intros key. cbn [cache cacheMetadata].
      destruct (decide (key = originalUrl req)) as [->|Hne].
      - rewrite !lookup_delete_eq. split; intros [? ?]; discriminate.
      - rewrite !lookup_delete_ne by done. apply Hcons. }
    unfold cacheMiddleware.
    destruct (negb (String.eqb _ _)); [done|].
    destruct (negb (existsb _ _)); [done|].
    destruct (cache st !! originalUrl req) as [d|]; [|done].
    destruct (truthy d); [|done].
    destruct (cacheMetadata st !! originalUrl req) as [md|]; [|done].
    by destruct (now <? expiresAt md).
  - by apply invalidateCache_consistent.
  - unfold cacheInvalidationMiddleware.
    destruct (existsb _ _); [by apply invalidateCache_consistent|done].
  - done.
Qed.

Lemma cache_maps_hold_the_same_keys_witness :
  store_consistent
    (cacheMiddleware products 300001
       (send_wrapper products true (Some (JObject [])) 0 0 empty_store).2).2.
Proof.
  destruct (cache_maps_hold_the_same_keys
              empty_store products true (Some (JObject [])) 0 0 0 None)
    as [Hempty Hkeep].
  destruct (Hkeep Hempty) as [Hstored _].
  destruct (cache_maps_hold_the_same_keys
              (send_wrapper products true (Some (JObject [])) 0 0 empty_store).2
              products true None 0 0 300001 None)
    as [_ Hkeep'].
  by destruct (Hkeep' Hstored) as (_ & Hlooked & _).
Defined.

(** X13: a request is answered from the cache exactly when it is a GET
    for a cacheable URL whose entry holds a truthy payload and has metadata
    whose expiry has not been reached; the answer is that payload and the
    cache stays as it is. *)
Theorem cache_hit_exactly_when_fresh req now st data :
  (cacheMiddleware req now st = (Served data, st)
   ↔ method req = "GET" ∧ isCacheable (originalUrl req) = true ∧
     cache st !! originalUrl req = Some data ∧ truthy data = true ∧
     ∃ md, cacheMetadata st !! originalUrl req = Some md ∧
           now < expiresAt md) ∧
  (∀ st', cacheMiddleware req now st = (Served data, st') → st' = st).
Proof.
  split; [|intros st' H; by apply served_entry_is_fresh in H as (_ & _ & ->)].
  unfold cacheMiddleware, isCacheable. split.
  - destruct (String.eqb (method req) "GET") eqn:Eget; [|done].
    apply String.eqb_eq in Eget. cbn [negb].
    destruct (existsb _ CACHEABLE_ROUTES); [|done]. cbn [negb].
    destruct (cache st !! originalUrl req) as [d|]; [|done].
    destruct (truthy d) eqn:Et; [|done].
    destruct (cacheMetadata st !! originalUrl req) as [md|]; [|done].
    destruct (now <? expiresAt md) eqn:E; [|done].
    intros [= <-]. apply Z.ltb_lt in E. eauto 10.
  - intros (-> & -> & -> & -> & md & -> & Hlt). simpl.
    apply Z.ltb_lt in Hlt. by rewrite Hlt.
Qed.

Lemma cache_hit_exactly_when_fresh_witness :
  cacheMiddleware products 299999
    (send_wrapper products true (Some (JObject [])) 0 0 empty_store).2
  = (Served (JObject []),
     (send_wrapper products true (Some (JObject [])) 0 0 empty_store).2).
Proof.
  apply (proj1 (cache_hit_exactly_when_fresh products 299999
                  (send_wrapper products true (Some (JObject [])) 0 0
                     empty_store).2 (JObject []))).
  repeat split; try reflexivity.
  eexists. split; [reflexivity|]. vm_compute. reflexivity.
Defined.

Lemma cacheDuration_positive url : 0 < cacheDuration url.
Proof.
  unfold cacheDuration, duration_in, CACHE_DURATIONS. cbn [List.find fst].
  by repeat match goal with
            | |- context [startsWith ?u ?p] => destruct (startsWith u p)
            end.
Qed.

(** X14: a response stored for a cacheable GET with a truthy payload is
    served unchanged by every lookup of the same URL made before its expiry
    (the configured durations are all positive, so also by a lookup at the
    time it was stored); the first lookup at or after the expiry is a miss
    that removes the entry from both maps and leaves the other entries as
    they were. *)
Theorem stored_response_served_until_expiry
    req (jsonData : json) cachedNow expiryNow now st :
  method req = "GET" →
  isCacheable (originalUrl req) = true →
  truthy jsonData = true →
  let stored :=
    (send_wrapper req true (Some jsonData) cachedNow expiryNow st).2 in
  let ttl := cacheDuration (originalUrl req) in
  0 < ttl ∧
  (now < expiryNow + ttl →
     cacheMiddleware req now stored = (Served jsonData, stored)) ∧
  (expiryNow + ttl ≤ now →
     let result := cacheMiddleware req now stored in
     result.1 = Forwarded true ∧
     cache result.2 !! originalUrl req = None ∧
     cacheMetadata result.2 !! originalUrl req = None ∧
     ∀ key, key ≠ originalUrl req →
       cache result.2 !! key = cache st !! key ∧
       cacheMetadata result.2 !! key = cacheMetadata st !! key).
Proof.
  intros Hget Hroute Htruthy. cbv zeta. split; [apply cacheDuration_positive|].
  unfold isCacheable in Hroute.
  unfold send_wrapper, cacheMiddleware. cbn [snd cache cacheMetadata].
  rewrite Hget, Hroute.
  change (String.eqb "GET" "GET") with true. cbn [negb].
  rewrite !lookup_insert_eq, Htruthy. cbn [expiresAt].
  split.
  - intros Hlt. apply Z.ltb_lt in Hlt. by rewrite Hlt.
  - intros Hge. apply Z.ltb_ge in Hge. rewrite Hge. cbn [fst snd cache cacheMetadata].
    rewrite !lookup_delete_eq. split; [done|]. split; [done|]. split; [done|].
    intros key Hne. by rewrite !lookup_delete_ne, !lookup_insert_ne.
Qed.

Lemma stored_response_served_until_expiry_witness :
  cacheMiddleware products 0
    (send_wrapper products true (Some (JObject [])) 0 0 empty_store).2
  = (Served (JObject []),
     (send_wrapper products true (Some (JObject [])) 0 0 empty_store).2).
Proof.
  destruct (stored_response_served_until_expiry
              products (JObject []) 0 0 0 empty_store)
    as (_ & Hhit & _).
  - reflexivity.
  - reflexivity.
  - reflexivity.
  - apply Hhit. reflexivity.
Defined.

(** X15: a lookup never adds or alters an entry and touches no URL but the
    requested one; for a request that is not a GET or whose URL is not
    cacheable it leaves the cache as it is and does not wrap [res.send], so
    nothing is stored for it. The wrapper writes the entry of the requested
    URL only, and writes nothing when the response is not JSON or its body
    does not parse. *)
Theorem cache_touches_requested_url_only
    req now st jsonType parsed cachedNow expiryNow :
  let looked := cacheMiddleware req now st in
  let sent := send_wrapper req jsonType parsed cachedNow expiryNow st in
  (∀ key, key ≠ originalUrl req →
     cache looked.2 !! key = cache st !! key ∧
     cacheMetadata looked.2 !! key = cacheMetadata st !! key ∧
     cache sent.2 !! key = cache st !! key ∧
     cacheMetadata sent.2 !! key = cacheMetadata st !! key) ∧
  (∀ key data, cache looked.2 !! key = Some data →
     cache st !! key = Some data) ∧
  (method req ≠ "GET" ∨ isCacheable (originalUrl req) = false →
     looked = (Forwarded false, st)) ∧
  (jsonType = false ∨ parsed = None → sent = (None, st)).
Proof.
  cbv zeta.
  assert (cacheMiddleware req now st = (Forwarded false, st) ∨
          (cacheMiddleware req now st).2 = st ∨
          (cacheMiddleware req now st).2
          = {| cache := delete (originalUrl req) (cache st);
               cacheMetadata := delete (originalUrl req) (cacheMetadata st) |})
    as Hshape.
  { unfold cacheMiddleware.
    destruct (negb (String.eqb _ _)); [by left|].
    destruct (negb (existsb _ _)); [by left|].
    destruct (cache st !! originalUrl req) as [d|]; [|by right; left].
    destruct (truthy d); [|by right; left].
    destruct (cacheMetadata st !! originalUrl req) as [md|]; [|by right; right].
    destruct (now <? expiresAt md); [by right; left|by right; right]. }
  split; [|split; [|split]].
  - intros key Hne.
    assert (cache (cacheMiddleware req now st).2 !! key = cache st !! key ∧
            cacheMetadata (cacheMiddleware req now st).2 !! key
            = cacheMetadata st !! key) as [-> ->].
    { destruct Hshape as [-> |[-> | ->]]; [done..|].
      cbn [cache cacheMetadata]. by rewrite !lookup_delete_ne. }
    split; [done|]. split; [done|]. unfold send_wrapper.
    destruct jsonType; [|done]. destruct parsed; [|done].
    cbn [snd cache cacheMetadata]. by rewrite !lookup_insert_ne.
  - intros key data.
    destruct Hshape as [-> |[-> | ->]]; [done..|]. cbn [cache].
    intros H. by apply lookup_delete_Some in H as [_ ?].
  - unfold cacheMiddleware, isCacheable. intros [Hm| ->]; [|by destruct (negb _)].
    destruct (String.eqb (method req) "GET") eqn:E; [|done].
    by apply String.eqb_eq in E.
  - unfold send_wrapper. intros [-> | ->]; [done|by destruct jsonType].
Qed.

Lemma cache_touches_requested_url_only_witness :
  cacheMiddleware
    {| method := "POST"; originalUrl := "/products"; path := "/products" |}
    10 (send_wrapper products true (Some (JObject [])) 0 0 empty_store).2
  = (Forwarded false,
     (send_wrapper products true (Some (JObject [])) 0 0 empty_store).2).
Proof.
  destruct (cache_touches_requested_url_only
              {| method := "POST"; originalUrl := "/products";
                 path := "/products" |}
              10 (send_wrapper products true (Some (JObject [])) 0 0
                    empty_store).2 true None 0 0)
    as (_ & _ & Hskip & _).
  apply Hskip. left. discriminate.
Defined.

End cache_more.

(** ** Router *)

Section router.
Import Router.

Implicit Types (routes : list (string * list string)) (st : state).

Lemma healthy_list_empty path services sh :
  HealthChecker.getHealthyServices path services sh = [] ↔
  ∀ s, s ∈ services → HealthChecker.flag s sh ≠ Some true.
Proof.
  split.
  - intros Hnil s Hs Hflag.
    assert (s ∈ HealthChecker.getHealthyServices path services sh) as Hin
      by (by apply elem_of_getHealthyServices).
    rewrite Hnil in Hin. by apply elem_of_nil in Hin.
  - intros Hnone.
    destruct (HealthChecker.getHealthyServices path services sh)
      as [|s rest] eqn:E; [done|].
    assert (s ∈ HealthChecker.getHealthyServices path services sh) as Hin
      by (rewrite E; left).
    apply elem_of_getHealthyServices in Hin as [Hs Hflag].
    by destruct (Hnone s Hs).
Qed.

(** X16: [routeRequest] hands a request to the proxy only with a target
    that belongs to the first route whose key the URL starts with and that
    the health registry marks healthy; it then advances that route's
    round-robin counter by one and raises the target's connection count by
    one. It answers 404 exactly when no key matches or the first matching
    key is the empty string, and 503 exactly when the matched route has no
    healthy service; in both cases no registry changes. *)
Theorem dispatch_reaches_healthy_endpoint_only url routes st :
  let result := routeRequest url routes st in
  (result.1 = Status404 ↔
     match matchRoute url routes with
     | None => True
     | Some (p, _) => p = ""
     end) ∧
  (∀ path, result.1 = Status503 path ↔
     ∃ services, matchRoute url routes = Some (path, services) ∧ path ≠ "" ∧
       ∀ s, s ∈ services →
            HealthChecker.flag s (serviceHealth st) ≠ Some true) ∧
  (result.1 = Status404 ∨ (∃ path, result.1 = Status503 path) →
     result.2 = st) ∧
  (∀ path target, result.1 = Proxied path target →
     ∃ services s,
       matchRoute url routes = Some (path, services) ∧
       target = Some s ∧ s ∈ services ∧
       HealthChecker.flag s (serviceHealth st) = Some true ∧
       serviceHealth result.2 = serviceHealth st ∧
       LoadBalancer.counter_of path (counters result.2)
       = S (LoadBalancer.counter_of path (counters st)) ∧
       LoadBalancer.active path s (activeConnections result.2)
       = Some (default 0 (LoadBalancer.active path s (activeConnections st))
               + 1)).
Proof.
  cbv zeta. unfold routeRequest.
  destruct (matchRoute url routes) as [[p services]|] eqn:Ematch.
  2:{ cbn [fst snd]. split; [done|]. split.
      - intros path. split; [done|]. by intros (? & ? & _).
      - split; [done|]. done. }
  destruct (String.eqb p "") eqn:Eempty.
  { apply String.eqb_eq in Eempty as ->. cbn [fst snd].
    split; [done|]. split.
    - intros path. split; [done|]. intros (sv & [= <- <-] & Hne & _). done.
    - split; [done|]. done. }
  apply String.eqb_neq in Eempty.
  destruct (HealthChecker.getHealthyServices p services (serviceHealth st))
    as [|h rest] eqn:Ehealthy.
  { cbn [fst snd].
    pose proof (proj1 (healthy_list_empty _ _ _) Ehealthy) as Hnone.
    split; [split; [done|intros ->; done]|]. split.
    - intros path. split.
      + intros [= <-]. by exists services.
      + by intros (sv & [= <- <-] & _ & _).
    - split; [done|]. done. }
  set (healthy := h :: rest) in *.
  unfold LoadBalancer.getNextTargetRoundRobin. cbn [fst snd].
  set (c := LoadBalancer.counter_of p (counters st)).
  assert (∃ s, healthy !! (c mod length healthy)%nat = Some s) as [s Hs].
  { apply lookup_lt_is_Some_2, Nat.mod_upper_bound. done. }
  subst healthy. rewrite Hs. cbn [from_option id].
  split; [split; [done|by intros ->]|]. split.
  { intros path. split; [done|].
    intros (sv & [= <- <-] & _ & Hnone).
    assert (h ∈ HealthChecker.getHealthyServices p services (serviceHealth st))
      as Hin by (rewrite Ehealthy; left).
    apply elem_of_getHealthyServices in Hin as [Hh Hflag].
    by destruct (Hnone h Hh). }
  split.
  { intros [H|[path H]]; discriminate H. }
  intros path target [= <- <-]. exists services, s.
  assert (s ∈ HealthChecker.getHealthyServices p services (serviceHealth st))
    as Hin by (rewrite Ehealthy; by eapply list_elem_of_lookup_2).
  apply elem_of_getHealthyServices in Hin as [Hin Hflag].
  split; [done|]. split; [done|]. split; [done|]. split; [done|].
  cbn [serviceHealth counters activeConnections]. split; [done|]. split.
  - apply counter_of_insert.
  - apply active_increment.
Qed.

Lemma dispatch_reaches_healthy_endpoint_only_witness :
  (routeRequest "/users/7"
     [("/users", [HealthChecker.backend; HealthChecker.newcomer])]
     {| serviceHealth :=
          HealthChecker.initHealthChecker
            [("/users", [HealthChecker.newcomer])] ∅;
        counters := ∅; activeConnections := ∅ |}).1
  = Proxied "/users" (Some HealthChecker.newcomer).
Proof.
  destruct (dispatch_reaches_healthy_endpoint_only "/users/7"
     [("/users", [HealthChecker.backend; HealthChecker.newcomer])]
     {| serviceHealth :=
          HealthChecker.initHealthChecker
            [("/users", [HealthChecker.newcomer])] ∅;
        counters := ∅; activeConnections := ∅ |})
    as (_ & _ & _ & Hproxy).
  destruct (Hproxy "/users" (Some HealthChecker.newcomer) eq_refl)
    as (services & s & _ & _ & _).
  reflexivity.
Defined.

Lemma startsWith_trans url p2 p1 :
  Cache.startsWith url p2 = true → Cache.startsWith p2 p1 = true →
  Cache.startsWith url p1 = true.
Proof.
  revert url p2. induction p1 as [|c p1 IH]; intros url p2 H2 H1.
  { unfold Cache.startsWith. by destruct url. }
  apply startsWith_cons_inv in H1 as (r2 & -> & H1).
  apply startsWith_cons_inv in H2 as (r & -> & H2).
  unfold Cache.startsWith. simpl.
  destruct (ascii_dec c c); [|done]. by apply (IH r r2).
Qed.

Lemma find_app {A} (f : A → bool) (a b : list A) :
  List.find f (a ++ b)
  = match List.find f a with Some x => Some x | None => List.find f b end.
Proof.
  induction a as [|x a IH]; [done|]. simpl. by destruct (f x).
Qed.

Lemma updateRoute_new path services routes :
  path ∉ keys routes →
  updateRoute path services routes = routes ++ [(path, services)].
Proof.
  unfold keys. induction routes as [|[p s] rest IH]; [done|].
  rewrite fmap_cons. intros Hnot. simpl.
  destruct (String.eqb p path) eqn:E.
  - apply String.eqb_eq in E. subst p. exfalso. apply Hnot. left.
  - f_equal. apply IH. intros Hin. apply Hnot. by right.
Qed.

(** X17: routes are matched in the order of their keys, first match wins:
    a route whose key starts with the key of a route placed before it is
    never matched, for any URL. A route added with [updateRoute] under a new
    key goes last, so it is never matched when an existing key is a prefix
    of the new one. *)
Theorem earlier_prefix_shadows_route before p1 s1 after p2 url services :
  Cache.startsWith p2 p1 = true →
  p2 ∉ keys before → p2 ≠ p1 →
  (∀ e, matchRoute url (before ++ (p1, s1) :: after) = Some e → e.1 ≠ p2) ∧
  (p2 ∉ keys after →
   ∀ e, matchRoute url
          (updateRoute p2 services (before ++ (p1, s1) :: after)) = Some e →
        e.1 ≠ p2).
Proof.
  intros Hprefix Hbefore Hne.
  assert (∀ rest e,
            matchRoute url (before ++ (p1, s1) :: rest) = Some e → e.1 ≠ p2)
    as Hshadow.
  { intros rest e. unfold matchRoute. rewrite find_app.
    destruct (List.find _ before) as [x|] eqn:Eb.
    - intros [= <-]. apply find_some in Eb as [Hin _].
      intros Hx. apply Hbefore. unfold keys. rewrite <- Hx.
      apply list_elem_of_fmap. exists x. split; [done|].
      by apply list_elem_of_In.
    - cbn [List.find fst].
      destruct (Cache.startsWith url p1) eqn:E1.
      + by intros [= <-].
      + intros Hfind He. apply find_some in Hfind as [_ Hmatch].
        rewrite He in Hmatch.
        by rewrite (startsWith_trans url p2 p1 Hmatch Hprefix) in E1. }
  split; [apply Hshadow|].
  intros Hafter e. rewrite updateRoute_new.
  - rewrite <- app_assoc. simpl. apply Hshadow.
  - unfold keys in *. rewrite fmap_app, fmap_cons. simpl.
    intros [Hin|[Hin|Hin]%elem_of_cons]%elem_of_app; done.
Qed.

Lemma earlier_prefix_shadows_route_witness :
  matchRoute "/users/admin/7"
    (updateRoute "/users/admin" [HealthChecker.newcomer]
       [("/users", [HealthChecker.backend])])
  = Some ("/users", [HealthChecker.backend]).
Proof.
  pose proof (proj2 (earlier_prefix_shadows_route
                       [] "/users" [HealthChecker.backend] []
                       "/users/admin" "/users/admin/7"
                       [HealthChecker.newcomer]
                       eq_refl ltac:(by intros ?%elem_of_nil)
                       ltac:(discriminate))
                ltac:(by intros ?%elem_of_nil)) as Hnever.
  reflexivity.
Defined.

Lemma route_of_updateRoute path services routes other :
  route_of other (updateRoute path services routes)
  = if String.eqb other path then Some services else route_of other routes.
Proof.
  unfold route_of. induction routes as [|[p s] rest IH]; simpl.
  - rewrite String.eqb_sym. by destruct (String.eqb other path).
  - destruct (String.eqb p path) eqn:E; simpl.
    + apply String.eqb_eq in E. subst p.
      rewrite (String.eqb_sym path other).
      by destruct (String.eqb other path).
    + destruct (String.eqb p other) eqn:E'; simpl; [|done].
      apply String.eqb_eq in E'. subst p. by rewrite E.
Qed.

Lemma route_of_removeRoute path routes other :
  route_of other (removeRoute path routes)
  = if String.eqb other path then None else route_of other routes.
Proof.
  unfold route_of, removeRoute. induction routes as [|[p s] rest IH]; simpl.
  - by destruct (String.eqb other path).
  - destruct (String.eqb p path) eqn:E; simpl.
    + rewrite IH. apply String.eqb_eq in E. subst p.
      rewrite (String.eqb_sym path other).
      by destruct (String.eqb other path).
    + destruct (String.eqb p other) eqn:E'; simpl; [|done].
      apply String.eqb_eq in E'. subst p. by rewrite E.
Qed.

Lemma keys_updateRoute path services routes :
  keys (updateRoute path services routes)
  = if bool_decide (path ∈ keys routes) then keys routes
    else keys routes ++ [path].
Proof.
  unfold keys. induction routes as [|[p s] rest IH].
  - cbn [updateRoute]. rewrite !fmap_cons, !fmap_nil.
    by rewrite bool_decide_eq_false_2 by (by intros ?%elem_of_nil).
  - cbn [updateRoute]. destruct (String.eqb p path) eqn:E.
    + apply String.eqb_eq in E. subst p. rewrite !fmap_cons.
      by rewrite bool_decide_eq_true_2 by left.
    + apply String.eqb_neq in E. rewrite !fmap_cons, IH. cbn [fst].
      assert (bool_decide (path ∈ p :: rest.*1)
              = bool_decide (path ∈ rest.*1)) as ->.
      { apply bool_decide_ext. rewrite elem_of_cons.
        split; [intros [Heq|Hin]; [by symmetry in Heq|done]|by right]. }
      by case_bool_decide.
Qed.

(** X18: the route table behaves as a map that remembers the order of its
    keys. After [updateRoute] the path maps to the new services and every
    other path to what it mapped to; an existing key keeps its place and a
    new one goes last; after [removeRoute] the path maps to nothing and the
    others are unchanged; removing a path that was just added as new gives
    back the table; keys stay unique. *)
Theorem route_table_is_an_ordered_map path services routes :
  route_of path (updateRoute path services routes) = Some services ∧
  route_of path (removeRoute path routes) = None ∧
  (∀ other, other ≠ path →
     route_of other (updateRoute path services routes) = route_of other routes ∧
     route_of other (removeRoute path routes) = route_of other routes) ∧
  keys (updateRoute path services routes)
  = (if bool_decide (path ∈ keys routes) then keys routes
     else keys routes ++ [path]) ∧
  (path ∉ keys routes →
     removeRoute path (updateRoute path services routes) = routes) ∧
  (NoDup (keys routes) →
     NoDup (keys (updateRoute path services routes)) ∧
     NoDup (keys (removeRoute path routes))).
Proof.
  split; [by rewrite route_of_updateRoute, String.eqb_refl|].
  split; [by rewrite route_of_removeRoute, String.eqb_refl|].
  split.
  { intros other Hne. apply String.eqb_neq in Hne.
    by rewrite route_of_updateRoute, route_of_removeRoute, Hne. }
  split; [apply keys_updateRoute|]. split.
  { intros Hnew. rewrite updateRoute_new by done. unfold removeRoute.
    rewrite List.filter_app. simpl. rewrite String.eqb_refl. simpl.
    rewrite app_nil_r. apply forallb_filter_id, forallb_forall.
    intros [p s] Hin. simpl. apply negb_true_iff, String.eqb_neq.
    intros ->. apply Hnew. unfold keys. apply list_elem_of_fmap.
    exists (path, s). split; [done|]. by apply list_elem_of_In. }
  intros Hnodup. split.
  - rewrite keys_updateRoute. case_bool_decide as Hin; [done|].
    apply NoDup_app. split; [done|]. split.
    + intros x Hx ->%list_elem_of_singleton. done.
    + apply NoDup_singleton.
  - unfold keys, removeRoute in *.
    induction routes as [|[p s] rest IH]; [done|]. simpl in *.
    apply NoDup_cons in Hnodup as [Hp Hrest].
    destruct (negb (String.eqb p path)); simpl; [|by apply IH].
    apply NoDup_cons. split; [|by apply IH].
    intros Hin. apply Hp. apply list_elem_of_fmap in Hin as ([p' s'] & -> & Hin).
    apply list_elem_of_In, filter_In in Hin as [Hin _].
    apply list_elem_of_fmap. exists (p', s'). split; [done|].
    by apply list_elem_of_In.
Qed.

Lemma route_table_is_an_ordered_map_witness :
  removeRoute "/orders"
    (updateRoute "/orders" [HealthChecker.newcomer]
       [("/users", [HealthChecker.backend])])
  = [("/users", [HealthChecker.backend])].
Proof.
  destruct (route_table_is_an_ordered_map "/orders" [HealthChecker.newcomer]
              [("/users", [HealthChecker.backend])])
    as (_ & _ & _ & _ & Hback & _).
  apply Hback. intros Hin. apply elem_of_cons in Hin as [Hin|Hin].
  - discriminate Hin.
  - by apply elem_of_nil in Hin.
Defined.

Lemma elem_of_updateRoute path services routes p l :
  (p, l) ∈ updateRoute path services routes →
  (p, l) = (path, services) ∨ (p, l) ∈ routes.
Proof.
  induction routes as [|[p' s'] rest IH]; simpl.
  - intros ->%list_elem_of_singleton. by left.
  - destruct (String.eqb p' path) eqn:E.
    + apply String.eqb_eq in E. subst p'.
      intros [->|Hin]%elem_of_cons; [by left|right; by right].
    + intros [->|Hin]%elem_of_cons; [right; left|].
      destruct (IH Hin); [by left|right; by right].
Qed.

(** X19: the administrative handlers never leave a route without
    services: [PUT /admin/routes/:path] answers 400 and changes nothing when
    [services] is not an array or is empty, and otherwise sets the route
    ["/" + path]; a table in which every route has a service stays so under
    both handlers. *)
Theorem admin_keeps_every_route_served param services routes :
  ((put_route param services routes).1 = 400
   ↔ services = None ∨ services = Some []) ∧
  ((put_route param services routes).1 = 400 →
   (put_route param services routes).2 = routes) ∧
  (∀ l, services = Some l → l ≠ [] →
     put_route param services routes
     = (200, updateRoute ("/" +:+ param) l routes)) ∧
  ((∀ p l, (p, l) ∈ routes → l ≠ []) →
   (∀ p l, (p, l) ∈ (put_route param services routes).2 → l ≠ []) ∧
   (∀ p l, (p, l) ∈ (delete_route param routes).2 → l ≠ [])).
Proof.
  split; [|split; [|split]].
  - unfold put_route. destruct services as [[|x l]|]; simpl.
    + split; [by right|done].
    + split; [done|]. intros [?|?]; discriminate.
    + split; [by left|done].
  - unfold put_route. by destruct services as [[|x l]|].
  - intros l -> Hne. unfold put_route. by destruct l.
  - intros Hall. split.
    + intros p l. unfold put_route. destruct services as [[|x sv]|]; simpl;
        [apply Hall| |apply Hall].
      intros [[= -> ->]|Hin]%elem_of_updateRoute; [done|by eapply Hall].
    + intros p l. unfold delete_route, removeRoute. simpl.
      intros Hin%list_elem_of_In. apply filter_In in Hin as [Hin _].
      apply list_elem_of_In in Hin. by eapply Hall.
Qed.

Lemma admin_keeps_every_route_served_witness :
  put_route "orders" (Some []) [("/users", [HealthChecker.backend])]
  = (400, [("/users", [HealthChecker.backend])]).
Proof.
  pose proof (admin_keeps_every_route_served "orders" (Some [])
                [("/users", [HealthChecker.backend])])
    as (Hstatus & Hsame & _).
  assert ((put_route "orders" (Some [])
             [("/users", [HealthChecker.backend])]).1 = 400) as H400
    by (apply Hstatus; by right).
  specialize (Hsame H400).
  destruct (put_route "orders" (Some []) [("/users", [HealthChecker.backend])])
    as [code table].
  simpl in *. by subst.
Defined.

(** X20: a route added through the administration for a URL that no
    existing route matches answers 503 as long as none of its services has a
    health record: the router takes the new route, and the health filter
    leaves out every service without a record. *)
Theorem new_route_unavailable_without_health_records
    param services routes st url :
  services ≠ [] →
  (∀ s, s ∈ services → serviceHealth st !! s = None) →
  matchRoute url routes = None →
  Cache.startsWith url ("/" +:+ param) = true →
  routeRequest url (put_route param (Some services) routes).2 st
  = (Status503 ("/" +:+ param), st).
Proof.
  intros Hne Hunknown Hnomatch Hstarts.
  assert ("/" +:+ param ∉ keys routes) as Hnew.
  { intros Hin. unfold keys in Hin.
    apply list_elem_of_fmap in Hin as ([p l] & Hp & Hin). simpl in Hp. subst p.
    unfold matchRoute in Hnomatch.
    apply list_elem_of_In in Hin.
    pose proof (find_none _ _ Hnomatch _ Hin) as Hno. simpl in Hno.
    congruence. }
  unfold put_route. destruct services as [|x l]; [done|]. cbn [snd].
  rewrite updateRoute_new by done. unfold routeRequest, matchRoute.
  rewrite find_app. unfold matchRoute in Hnomatch. rewrite Hnomatch.
  cbn [List.find fst]. rewrite Hstarts.
  change (String.eqb ("/" +:+ param) "") with false. cbv iota.
  assert (HealthChecker.getHealthyServices ("/" +:+ param) (x :: l)
            (serviceHealth st) = []) as ->; [|done].
  apply healthy_list_empty. intros s Hs. unfold HealthChecker.flag.
  by rewrite (Hunknown s Hs).
Qed.

Lemma new_route_unavailable_without_health_records_witness :
  let st := {| serviceHealth :=
                 HealthChecker.initHealthChecker
                   [("/users", [HealthChecker.backend])] ∅;
               counters := ∅; activeConnections := ∅ |} in
  routeRequest "/orders/1"
    (put_route "orders" (Some [HealthChecker.newcomer])
       [("/users", [HealthChecker.backend])]).2 st
  = (Status503 "/orders", st).
Proof.
  intros st.
  apply (new_route_unavailable_without_health_records
           "orders" [HealthChecker.newcomer]
           [("/users", [HealthChecker.backend])] st "/orders/1").
  - discriminate.
  - intros s ->%list_elem_of_singleton. reflexivity.
  - reflexivity.
  - reflexivity.
Defined.

Lemma dispatch_many_lookup n url routes st path services k :
  matchRoute url routes = Some (path, services) →
  path ≠ "" →
  HealthChecker.getHealthyServices path services (serviceHealth st) ≠ [] →
  (k < n)%nat →
  (dispatch_many n url routes st).1 !! k
  = Some (Proxied path
            (HealthChecker.getHealthyServices path services (serviceHealth st)
             !! ((LoadBalancer.counter_of path (counters st) + k)
                 mod length (HealthChecker.getHealthyServices path services
                               (serviceHealth st)))%nat)).
Proof.
  intros Hmatch Hpath. revert st k.
  induction n as [|n IH]; intros st k Hhealthy Hk; [lia|].
  cbn [dispatch_many].
  assert (routeRequest url routes st
          = (Proxied path
               (HealthChecker.getHealthyServices path services
                  (serviceHealth st)
                !! (LoadBalancer.counter_of path (counters st)
                    mod length (HealthChecker.getHealthyServices path services
                                  (serviceHealth st)))%nat),
             {| serviceHealth := serviceHealth st;
                counters :=
                  <[path := S (LoadBalancer.counter_of path (counters st))]>
                    (counters st);
                activeConnections :=
                  LoadBalancer.incrementConnections path
                    (default "undefined"
                       (HealthChecker.getHealthyServices path services
                          (serviceHealth st)
                        !! (LoadBalancer.counter_of path (counters st)
                            mod length
                                  (HealthChecker.getHealthyServices path
                                     services (serviceHealth st)))%nat))
                    (activeConnections st) |})) as ->.
  { unfold routeRequest. rewrite Hmatch.
    apply String.eqb_neq in Hpath. rewrite Hpath.
    destruct (HealthChecker.getHealthyServices path services (serviceHealth st))
      as [|h rest]; [done|].
    reflexivity. }
  match goal with
  | |- context [dispatch_many n url routes ?s] => specialize (IH s)
  end.
  cbn [serviceHealth counters] in IH.
  destruct (dispatch_many n url routes _) as [rs st2]. cbn [fst] in *.
  destruct k as [|k]; cbn [lookup list_lookup].
  - by rewrite Nat.add_0_r.
  - simpl. rewrite IH by (done || lia). rewrite counter_of_insert.
    by replace (S (LoadBalancer.counter_of path (counters st)) + k)%nat
      with (LoadBalancer.counter_of path (counters st) + S k)%nat by lia.
Qed.

(** X21: with the health records unchanged, requests for the same URL are
    handed to the healthy services of the matched route in turn: the
    [k]-th of [n] requests in a row goes to the healthy service at position
    counter plus [k] modulo the number of healthy services, the unhealthy
    ones being skipped. *)
Theorem router_rotates_over_healthy_services
    n url routes st path services k :
  matchRoute url routes = Some (path, services) →
  path ≠ "" →
  let healthy :=
    HealthChecker.getHealthyServices path services (serviceHealth st) in
  healthy ≠ [] →
  (k < n)%nat →
  ∃ target,
    (dispatch_many n url routes st).1 !! k = Some (Proxied path (Some target)) ∧
    healthy !! ((LoadBalancer.counter_of path (counters st) + k)
                mod length healthy)%nat = Some target ∧
    target ∈ services ∧
    HealthChecker.flag target (serviceHealth st) = Some true.
Proof.
  intros Hmatch Hpath healthy Hhealthy Hk.
  rewrite (dispatch_many_lookup n url routes st path services k) by done.
  fold healthy.
  destruct (lookup_lt_is_Some_2 healthy
              ((LoadBalancer.counter_of path (counters st) + k)
               mod length healthy)%nat) as [target Ht].
  { apply Nat.mod_upper_bound. by destruct healthy. }
  exists target. rewrite Ht. split; [done|]. split; [done|].
  apply elem_of_getHealthyServices with path.
  by eapply list_elem_of_lookup_2.
Qed.

Lemma router_rotates_over_healthy_services_witness :
  let st := {| serviceHealth :=
                 HealthChecker.run_checks HealthChecker.backend
                   [(false, 1); (false, 2); (false, 3)]
                   (HealthChecker.initHealthChecker
                      [("/users",
                        [HealthChecker.backend; HealthChecker.newcomer])] ∅);
               counters := ∅; activeConnections := ∅ |} in
  (dispatch_many 2 "/users"
     [("/users", [HealthChecker.backend; HealthChecker.newcomer])] st).1
  = [Proxied "/users" (Some HealthChecker.newcomer);
     Proxied "/users" (Some HealthChecker.newcomer)].
Proof.
  intros st.
  destruct (router_rotates_over_healthy_services 2 "/users"
              [("/users", [HealthChecker.backend; HealthChecker.newcomer])]
              st "/users" [HealthChecker.backend; HealthChecker.newcomer]
              1%nat) as (target & Hk & _).
  - reflexivity.
  - discriminate.
  - vm_compute. discriminate.
  - lia.
  - reflexivity.
Defined.

End router.

(** ** Authentication *)

Section authentication.
Import Auth.

Implicit Types (verify : string → option payload) (req : request).

Lemma present_Some v s : present v = Some s → v = Some s ∧ s ≠ "".
Proof.
  unfold present. destruct v as [x|]; [|done].
  destruct (String.eqb x "") eqn:E; [done|]. intros [= ->].
  by apply String.eqb_neq in E.
Qed.

Lemma existsb_eqb_elem_of (x : string) (l : list string) :
  existsb (String.eqb x) l = true ↔ x ∈ l.
Proof.
  rewrite existsb_exists. split.
  - intros (y & Hin & ->%String.eqb_eq). by apply list_elem_of_In.
  - intros Hin. exists x. split; [by apply list_elem_of_In|].
    apply String.eqb_refl.
Qed.

Lemma authenticateJWT_Next verify req u :
  authenticateJWT verify req = Next u →
  (isPublic (path req) = true ∧ u = None) ∨
  ∃ header token decoded,
    authorization req = Some header ∧
    Cache.split " " header !! 1%nat = Some token ∧ token ≠ "" ∧
    verify token = Some (ObjectPayload decoded) ∧
    u = Some {| userId := userId decoded; role := role decoded;
                apiKey := apiKey decoded; authenticated := true |}.
Proof.
  unfold authenticateJWT. destruct (isPublic (path req)).
  { intros [= <-]. by left. }
  destruct (present (authorization req)) as [h|] eqn:Eh; [|done].
  destruct (present (Cache.split " " h !! 1%nat)) as [t|] eqn:Et; [|done].
  destruct (verify t) as [[d|]|] eqn:Ev; [|done|done].
  intros [= <-]. right. exists h, t, d.
  apply present_Some in Eh as [-> _]. apply present_Some in Et as [-> ?].
  done.
Qed.

Lemma authenticateAPIKey_Next keys req u :
  authenticateAPIKey keys req = Next u →
  ∃ key, xApiKey req = Some key ∧ key ∈ keys ∧
         u = Some {| userId := None; role := Some "api-consumer";
                     apiKey := Some key; authenticated := true |}.
Proof.
  unfold authenticateAPIKey.
  destruct (present (xApiKey req)) as [k|] eqn:Ek; [|done].
  destruct (existsb (String.eqb k) keys) eqn:E; [|done].
  intros [= <-]. exists k. apply present_Some in Ek as [-> _].
  by apply existsb_eqb_elem_of in E.
Qed.

(** X22: [authenticate] lets a request through only if its path is
    [/health] or [/metrics], or it carries a [Bearer] header whose second
    word [jwt.verify] accepts with an object as payload, or it carries an
    API key of the configured set; the user it attaches is the decoded
    object or the API-key consumer, marked authenticated. Everything else
    is answered 401 or 403, and 403 only for a token that [jwt.verify]
    rejects or accepts with a payload that is no object, or a key that is
    not in the set. *)
Theorem only_valid_credentials_pass verify keys req :
  (∀ u, authenticate verify keys req = Next u →
     (isPublic (path req) = true ∧ u = None) ∨
     (∃ header token decoded,
        authorization req = Some header ∧
        Cache.startsWith header "Bearer " = true ∧
        Cache.split " " header !! 1%nat = Some token ∧
        verify token = Some (ObjectPayload decoded) ∧
        u = Some {| userId := userId decoded; role := role decoded;
                    apiKey := apiKey decoded; authenticated := true |}) ∨
     (∃ key, xApiKey req = Some key ∧ key ∈ keys ∧
        u = Some {| userId := None; role := Some "api-consumer";
                    apiKey := Some key; authenticated := true |})) ∧
  (∀ code error, authenticate verify keys req = Status code error →
     code = 401 ∨
     (code = 403 ∧
      ((∃ header token,
          authorization req = Some header ∧
          Cache.startsWith header "Bearer " = true ∧
          Cache.split " " header !! 1%nat = Some token ∧
          (verify token = None ∨ verify token = Some PrimitivePayload)) ∨
       (∃ key, xApiKey req = Some key ∧ key ∉ keys)))).
Proof.
  split.
  - intros u. unfold authenticate.
    destruct (isPublic (path req)) eqn:Epub.
    { intros [= <-]. by left. }
    destruct (present (authorization req)) as [h|] eqn:Eh.
    + destruct (Cache.startsWith h "Bearer ") eqn:Eb.
      * intros [[Hp _]|(h' & t & d & Hh & Ht & _ & Hv & ->)]%authenticateJWT_Next;
          [congruence|].
        right. left. exists h', t, d.
        apply present_Some in Eh as [Eh _]. rewrite Eh in Hh.
        injection Hh as <-. done.
      * destruct (present (xApiKey req)); [|done].
        intros H%authenticateAPIKey_Next. by right; right.
    + destruct (present (xApiKey req)); [|done].
      intros H%authenticateAPIKey_Next. by right; right.
  - intros code error. unfold authenticate.
    destruct (isPublic (path req)) eqn:Epub; [done|].
    assert (authenticateAPIKey keys req = Status code error →
            code = 401 ∨ code = 403 ∧
              ((∃ header token,
                  authorization req = Some header ∧
                  Cache.startsWith header "Bearer " = true ∧
                  Cache.split " " header !! 1%nat = Some token ∧
                  (verify token = None ∨
                   verify token = Some PrimitivePayload)) ∨
               (∃ key, xApiKey req = Some key ∧ key ∉ keys))) as Hkey.
    { unfold authenticateAPIKey.
      destruct (present (xApiKey req)) as [k|] eqn:Ek;
        [|intros [= <- _]; by left].
      destruct (existsb (String.eqb k) keys) eqn:E; [done|].
      intros [= <- _]. right. split; [done|]. right. exists k.
      apply present_Some in Ek as [-> _]. split; [done|].
      intros Hin%existsb_eqb_elem_of. congruence. }
    destruct (present (authorization req)) as [h|] eqn:Eh.
    + destruct (Cache.startsWith h "Bearer ") eqn:Eb.
      * unfold authenticateJWT. rewrite Epub, Eh.
        destruct (present (Cache.split " " h !! 1%nat)) as [t|] eqn:Et;
          [|intros [= <- _]; by left].
        apply present_Some in Eh as [Hh _].
        apply present_Some in Et as [Ht _].
        destruct (verify t) as [[d|]|] eqn:Ev; [done| |];
          intros [= <- _]; right; (split; [done|]); left; exists h, t.
        -- do 3 (split; [done|]). by right.
        -- do 3 (split; [done|]). by left.
      * destruct (present (xApiKey req)); [done|].
        intros [= <- _]. by left.
    + destruct (present (xApiKey req)); [done|].
      intros [= <- _]. by left.
Qed.

Lemma only_valid_credentials_pass_witness :
  authenticate (fun _ => None) ["test-api-key-123"]
    {| path := "/users"; authorization := None;
       xApiKey := Some "guess" |}
  = Status 403 "Invalid API key".
Proof.
  destruct (only_valid_credentials_pass (fun _ => None) ["test-api-key-123"]
              {| path := "/users"; authorization := None;
                 xApiKey := Some "guess" |}) as [_ Hstatus].
  destruct (Hstatus 403 "Invalid API key" eq_refl) as [?|_]; [done|].
  reflexivity.
Defined.

Lemma split_leading_piece (c : ascii) seg rest :
  free_of c seg = true →
  rest = "" ∨ (∃ r, rest = String c r) →
  ∃ tail, Cache.split c (seg +:+ rest) = seg :: tail.
Proof.
  intros Hseg Hrest. induction seg as [|x seg IH]; simpl.
  - destruct Hrest as [->|[r ->]]; [by exists []|].
    simpl. rewrite Ascii.eqb_refl. by eexists.
  - simpl in Hseg. apply andb_true_iff in Hseg as [Hx Hseg].
    apply negb_true_iff in Hx. rewrite Hx.
    destruct (IH Hseg) as [tail ->]. by eexists.
Qed.

(** X23: a [Bearer] header settles the request on its own. For a path
    that is not public and a header ["Bearer " + token], with a token
    without spaces, possibly followed by a space and more text, the token
    passed to [jwt.verify] is exactly [token]; the request passes when
    [jwt.verify] accepts it with an object as payload and is answered 403
    when it rejects the token or the payload is no object, whatever API key
    the request carries, so a valid API key does not rescue an invalid
    token. *)
Theorem bearer_header_decides verify keys p token rest key :
  isPublic p = false →
  token ≠ "" →
  free_of " " token = true →
  rest = "" ∨ (∃ r, rest = String " " r) →
  authenticate verify keys
    {| path := p; authorization := Some ("Bearer " +:+ token +:+ rest);
       xApiKey := key |}
  = match verify token with
    | Some (ObjectPayload decoded) =>
        Next (Some {| userId := userId decoded; role := role decoded;
                      apiKey := apiKey decoded; authenticated := true |})
    | _ => Status 403 "Invalid or expired token"
    end.
Proof.
  intros Hpub Htoken Hfree Hrest.
  destruct (split_leading_piece " " token rest Hfree Hrest) as [tail Hsplit].
  unfold authenticate, authenticateJWT. cbn [path authorization xApiKey].
  rewrite Hpub.
  change (present (Some ("Bearer " +:+ token +:+ rest)))
    with (Some ("Bearer " +:+ token +:+ rest)).
  cbv beta iota.
  assert (Cache.startsWith ("Bearer " +:+ token +:+ rest) "Bearer " = true)
    as ->.
  { change (Cache.startsWith ("Bearer " +:+ token +:+ rest) "Bearer ")
      with (String.prefix "" (token +:+ rest)).
    by destruct (token +:+ rest). }
  assert (Cache.split " " ("Bearer " +:+ token +:+ rest)
          = "Bearer" :: token :: tail) as ->.
  { change ("Bearer " +:+ token +:+ rest)
      with (String "B" (String "e" (String "a" (String "r" (String "e"
             (String "r" (String " " (token +:+ rest)))))))).
    cbn [Cache.split]. rewrite Hsplit. reflexivity. }
  cbn [lookup list_lookup]. unfold present.
  apply String.eqb_neq in Htoken. rewrite Htoken.
  by destruct (verify token) as [[decoded|]|].
Qed.

Lemma bearer_header_decides_witness :
  authenticate (fun _ => Some PrimitivePayload) ["test-api-key-123"]
    {| path := "/users"; authorization := Some "Bearer abc.def.ghi";
       xApiKey := Some "test-api-key-123" |}
  = Status 403 "Invalid or expired token".
Proof.
  apply (bearer_header_decides (fun _ => Some PrimitivePayload)
           ["test-api-key-123"]
           "/users" "abc.def.ghi" "" (Some "test-api-key-123")).
  - reflexivity.
  - discriminate.
  - reflexivity.
  - by left.
Defined.

(** X24: [authorize] answers 401 when no user is attached and otherwise
    passes exactly when the user's role, read as ["user"] when the role is
    missing or empty, is one of the allowed roles. A client admitted by its
    API key has the role ["api-consumer"], so it passes exactly when that
    role is allowed. *)
Theorem authorize_checks_effective_role allowedRoles keys req u :
  authorize allowedRoles None = Status 401 "User not authenticated" ∧
  (∀ usr, authorize allowedRoles (Some usr)
          = if bool_decide (default "user" (present (role usr)) ∈ allowedRoles)
            then Next None else Status 403 "Insufficient permissions") ∧
  (authenticateAPIKey keys req = Next u →
   authorize allowedRoles u
   = if bool_decide ("api-consumer" ∈ allowedRoles)
     then Next None else Status 403 "Insufficient permissions").
Proof.
  split; [done|].
  assert (∀ usr, authorize allowedRoles (Some usr)
          = if bool_decide (default "user" (present (role usr)) ∈ allowedRoles)
            then Next None else Status 403 "Insufficient permissions")
    as Hrole.
  { intros usr. unfold authorize.
    destruct (existsb _ allowedRoles) eqn:E.
    - apply existsb_eqb_elem_of in E. by rewrite bool_decide_eq_true_2.
    - rewrite bool_decide_eq_false_2; [done|].
      intros Hin%existsb_eqb_elem_of. congruence. }
  split; [done|].
  intros (k & _ & _ & ->)%authenticateAPIKey_Next. by rewrite Hrole.
Qed.

Lemma authorize_checks_effective_role_witness :
  authorize ["admin"; "moderator"]
    (Some {| userId := None; role := Some "api-consumer";
             apiKey := Some "test-api-key-123"; authenticated := true |})
  = Status 403 "Insufficient permissions".
Proof.
  destruct (authorize_checks_effective_role ["admin"; "moderator"]
              ["test-api-key-123"]
              {| path := "/users"; authorization := None;
                 xApiKey := Some "test-api-key-123" |}
              (Some {| userId := None; role := Some "api-consumer";
                       apiKey := Some "test-api-key-123";
                       authenticated := true |}))
    as (_ & _ & Hkey).
  rewrite (Hkey eq_refl). reflexivity.
Defined.

End authentication.

(** ** Request metrics *)

Section request_metrics.
Import Logger.

Implicit Types (m : metrics) (e : finished) (es : list finished).

Lemma finish_all_snoc es e m :
  finish_all (es ++ [e]) m = metricsMiddleware e (finish_all es m).
Proof. unfold finish_all. by rewrite fold_left_app. Qed.

Lemma responses_with_snoc `{EqDecision K} (key : finished → K) k es e :
  responses_with key k (es ++ [e])
  = responses_with key k es ++ (if bool_decide (key e = k) then [e] else []).
Proof. unfold responses_with. by rewrite List.filter_app. Qed.

Lemma bump_other k k' (obj : gmap string tallied) :
  k' ≠ k → bump k' obj !! k = obj !! k.
Proof.
  intros Hne. unfold bump.
  destruct (obj !! k') as [[n|ones]|]; [| |destruct (inherited k');
    [destruct (String.eqb k' "__proto__")|]];
    by rewrite ?lookup_insert_ne.
Qed.

Lemma bump_tally k n (obj : gmap string tallied) :
  obj !! k = tally k n → bump k obj !! k = tally k (S n).
Proof.
  unfold bump, tally. intros Hown. rewrite Hown.
  destruct n as [|n], (inherited k), (String.eqb k "__proto__");
    rewrite ?lookup_insert_eq, ?Nat.add_1_r; done.
Qed.

(** A counter object bumped once per response holds, under each key, the
    tally of the responses with that key. *)
Lemma bumped_counter_tallies (key : finished → string)
    (field : metrics → gmap string tallied) es k :
  field resetMetrics = ∅ →
  (∀ e m, field (metricsMiddleware e m) = bump (key e) (field m)) →
  field (finish_all es resetMetrics) !! k
  = tally k (length (responses_with key k es)).
Proof.
  intros Hreset Hstep. induction es as [|e es IH] using rev_ind.
  - change (finish_all [] resetMetrics) with resetMetrics. by rewrite Hreset.
  - rewrite finish_all_snoc, Hstep, responses_with_snoc, length_app.
    case_bool_decide as Hkey; cbn [length].
    + rewrite Hkey, (Nat.add_1_r (length _)). by apply bump_tally.
    + rewrite Nat.add_0_r, bump_other by done. exact IH.
Qed.

Lemma status_counter_tallies es code :
  requestsByStatus (finish_all es resetMetrics) !! code
  = tally_status (length (responses_with status code es)).
Proof.
  induction es as [|e es IH] using rev_ind; [done|].
  rewrite finish_all_snoc, responses_with_snoc, length_app.
  cbn [metricsMiddleware requestsByStatus]. unfold bump_status.
  case_bool_decide as Hcode; cbn [length].
  - rewrite Hcode, lookup_insert_eq, IH, (Nat.add_1_r (length _)).
    destruct (length _); simpl; f_equal; lia.
  - by rewrite lookup_insert_ne, Nat.add_0_r.
Qed.

Lemma sum_snoc ls l : sum (ls ++ [l]) = sum ls + l.
Proof. unfold sum. induction ls as [|x ls IH]; simpl; lia. Qed.

Lemma track_all_snoc ls l s :
  track_all (ls ++ [l]) s = track l (track_all ls s).
Proof. unfold track_all. by rewrite fold_left_app. Qed.

Lemma summarises_track ls l s :
  summarises ls s → summarises (ls ++ [l]) (track l s).
Proof.
  intros (Hcount & Htotal & Hmax & Hnonneg & Hreached & Hmin).
  unfold summarises, track. cbn [min max total count].
  split; [rewrite length_app; simpl; lia|].
  split; [rewrite sum_snoc; lia|].
  split.
  { intros x [Hx| ->%list_elem_of_singleton]%elem_of_app; [|lia].
    specialize (Hmax x Hx). lia. }
  split; [lia|].
  split.
  { destruct (Z.max_spec (max s) l) as [[_ ->]|[_ ->]].
    - right. apply elem_of_app. right. by apply list_elem_of_singleton.
    - destruct Hreached as [->|Hin]; [by left|].
      right. apply elem_of_app. by left. }
  destruct (min s) as [lo|].
  - destruct Hmin as [Hin Hlow].
    destruct (Z.min_spec lo l) as [[Hlt ->]|[Hle ->]].
    + split; [apply elem_of_app; by left|].
      intros x [Hx| ->%list_elem_of_singleton]%elem_of_app; [|lia].
      by apply Hlow.
    + split; [apply elem_of_app; right; by apply list_elem_of_singleton|].
      intros x [Hx| ->%list_elem_of_singleton]%elem_of_app; [|lia].
      specialize (Hlow x Hx). lia.
  - subst ls. split; [by apply list_elem_of_singleton|].
    intros x ->%list_elem_of_singleton. lia.
Qed.

Lemma summarises_track_all ls : summarises ls (track_all ls no_stats).
Proof.
  induction ls as [|l ls IH] using rev_ind.
  - unfold summarises. cbn. split; [done|]. split; [done|].
    split; [by intros l Hl%elem_of_nil|]. split; [done|].
    split; [by left|done].
  - rewrite track_all_snoc. by apply summarises_track.
Qed.

Lemma sum_between lo hi ls :
  (∀ l, l ∈ ls → lo ≤ l ≤ hi) →
  lo * Z.of_nat (length ls) ≤ sum ls ≤ hi * Z.of_nat (length ls).
Proof.
  unfold sum. induction ls as [|x ls IH]; intros Hall; [simpl; lia|].
  assert (lo ≤ x ≤ hi) by (apply Hall; left).
  assert (∀ l, l ∈ ls → lo ≤ l ≤ hi) as Hrest
    by (intros l Hl; apply Hall; by right).
  specialize (IH Hrest). cbn [length fold_right]. lia.
Qed.

Lemma latencyStats_finish_all es m :
  latencyStats (finish_all es m)
  = track_all (map latency es) (latencyStats m).
Proof.
  revert m. induction es as [|e es IH]; intros m; [done|].
  change (finish_all (e :: es) m)
    with (finish_all es (metricsMiddleware e m)).
  by rewrite IH.
Qed.

Lemma track_service_other service service' l (obj : gmap string stats) :
  service' ≠ service → track_service service' l obj !! service = obj !! service.
Proof.
  intros Hne. unfold track_service.
  destruct (obj !! service'); [|destruct (inherited service')];
    by rewrite ?lookup_insert_ne.
Qed.

Lemma latencyByService_finish_all es service :
  latencyByService (finish_all es resetMetrics) !! service
  = if inherited service then None
    else match latencies_of service es with
         | [] => None
         | _ :: _ => Some (track_all (latencies_of service es) no_stats)
         end.
Proof.
  induction es as [|e es IH] using rev_ind.
  - by destruct (inherited service).
  - rewrite finish_all_snoc. cbn [metricsMiddleware latencyByService].
    unfold latencies_of in *. rewrite responses_with_snoc, map_app.
    case_bool_decide as Hservice.
    + rewrite Hservice. unfold track_service. rewrite IH.
      destruct (inherited service); [done|].
      cbn [map]. rewrite track_all_snoc.
      destruct (map latency (responses_with service_of service es))
        as [|l ls] eqn:E; by rewrite lookup_insert_eq.
    + rewrite track_service_other by done. cbn [map]. by rewrite app_nil_r.
Qed.

Lemma totalRequests_finish_all es :
  totalRequests (finish_all es resetMetrics) = length es.
Proof.
  induction es as [|e es IH] using rev_ind; [done|].
  rewrite finish_all_snoc, length_app. cbn [metricsMiddleware totalRequests].
  rewrite IH. simpl. lia.
Qed.

Lemma totalErrors_finish_all es :
  totalErrors (finish_all es resetMetrics)
  = length (List.filter (fun e => 400 <=? status e) es).
Proof.
  induction es as [|e es IH] using rev_ind; [done|].
  rewrite finish_all_snoc, List.filter_app, length_app.
  cbn [metricsMiddleware totalErrors List.filter]. rewrite IH.
  destruct (400 <=? status e); simpl; lia.
Qed.

Lemma tally_number k n :
  inherited k = false → tally k n = Count <$> tally_status n.
Proof. intros Hk. unfold tally. rewrite Hk. by destruct n. Qed.

Lemma path_not_inherited p :
  Cache.startsWith p "/" = true → inherited p = false.
Proof.
  destruct p as [|c p]; [done|]. unfold Cache.startsWith.
  cbn [String.prefix]. destruct (ascii_dec "/" c) as [<-|]; [|done].
  by intros _.
Qed.

(** X25: the counters of the metrics object after any sequence of
    finished responses, starting from the reset state: [totalRequests] and
    the count of the overall latency accumulator both equal the number of
    responses, and [totalErrors] is the number of responses with status 400
    or above (so never more than [totalRequests]). Each counter object
    holds under a key the tally of the responses with that service, path or
    status: no entry for a key that never occurred, and otherwise their
    number, except that under the name of a member of [Object.prototype]
    the entry is a text and no number, and that there is never an entry
    under [__proto__]. So the entry is the number for every status, for
    every service whose name is no such member, and for every path that
    starts with a slash. A response without [x-forwarded-to] header, or
    with an empty one, is counted under ["unknown"]. *)
Theorem metrics_count_every_response es :
  let m := finish_all es resetMetrics in
  totalRequests m = length es ∧
  count (latencyStats m) = length es ∧
  totalErrors m = length (List.filter (fun e => 400 <=? status e) es) ∧
  (totalErrors m ≤ totalRequests m)%nat ∧
  (∀ service, requestsByService m !! service
     = tally service (length (responses_with service_of service es))) ∧
  (∀ p, requestsByPath m !! p
     = tally p (length (responses_with path p es))) ∧
  (∀ code, requestsByStatus m !! code
     = tally_status (length (responses_with status code es))) ∧
  (∀ service, inherited service = false →
     requestsByService m !! service
     = Count <$> tally_status
                   (length (responses_with service_of service es))) ∧
  (∀ p, Cache.startsWith p "/" = true →
     requestsByPath m !! p
     = Count <$> tally_status (length (responses_with path p es))).
Proof.
  cbv zeta.
  pose proof (totalRequests_finish_all es) as Htotal.
  pose proof (totalErrors_finish_all es) as Herrors.
  split; [done|].
  split.
  { rewrite latencyStats_finish_all.
    change (latencyStats resetMetrics) with no_stats.
    destruct (summarises_track_all (map latency es)) as [-> _].
    by rewrite length_map. }
  split; [done|].
  split.
  { rewrite Herrors, Htotal. apply List.filter_length_le. }
  split; [|split; [|split; [|split]]].
  - intros k. by apply (bumped_counter_tallies service_of requestsByService).
  - intros k. by apply (bumped_counter_tallies path requestsByPath).
  - apply status_counter_tallies.
  - intros k Hk.
    rewrite (bumped_counter_tallies service_of requestsByService) by done.
    by apply tally_number.
  - intros k Hk.
    rewrite (bumped_counter_tallies path requestsByPath) by done.
    by apply tally_number, path_not_inherited.
Qed.

Lemma metrics_count_every_response_witness :
  let m :=
    finish_all
      [ {| forwardedTo := Some "__proto__"; path := "/health"; status := 200;
           latency := 5 |};
        {| forwardedTo := Some "constructor"; path := "/health";
           status := 200; latency := 7 |};
        {| forwardedTo := None; path := "/users"; status := 404;
           latency := 3 |} ] resetMetrics in
  requestsByService m !! "__proto__" = None ∧
  requestsByService m !! "constructor" = Some (Text 1) ∧
  requestsByService m !! "unknown" = Some (Count 1) ∧
  requestsByPath m !! "/health" = Some (Count 2) ∧
  totalErrors m = 1%nat.
Proof.
  intros m.
  destruct (metrics_count_every_response
              [ {| forwardedTo := Some "__proto__"; path := "/health";
                   status := 200; latency := 5 |};
                {| forwardedTo := Some "constructor"; path := "/health";
                   status := 200; latency := 7 |};
                {| forwardedTo := None; path := "/users"; status := 404;
                   latency := 3 |} ])
    as (_ & _ & Herrors & _ & Hservice & Hpath & _).
  fold m in Herrors, Hservice, Hpath.
  rewrite !Hservice, Hpath, Herrors. by vm_compute.
Defined.

(** X26: the latency accumulators after any sequence of finished
    responses, starting from the reset state. The overall accumulator
    describes the latencies of all responses: count and sum are theirs,
    [min] is the least of them ([Infinity] only when there is none), and
    [max] is the greatest of them or 0, whichever is larger, so a negative
    latency never shows in [max]. A service whose name is no member of
    [Object.prototype] has an accumulator exactly when a response was
    handled for it; the accumulator describes the latencies of those
    responses, and its count is the service's request counter. Under the
    name of a member of [Object.prototype] there is never an
    accumulator. *)
Theorem latency_stats_summarise_responses es service :
  let m := finish_all es resetMetrics in
  summarises (map latency es) (latencyStats m) ∧
  match latencyByService m !! service with
  | None => latencies_of service es = [] ∨ inherited service = true
  | Some s =>
      inherited service = false ∧
      latencies_of service es ≠ [] ∧
      summarises (latencies_of service es) s ∧
      requestsByService m !! service = Some (Count (count s))
  end.
Proof.
  cbv zeta. split.
  { rewrite latencyStats_finish_all.
    change (latencyStats resetMetrics) with no_stats.
    apply summarises_track_all. }
  rewrite latencyByService_finish_all.
  rewrite (bumped_counter_tallies service_of requestsByService) by done.
  assert (length (responses_with service_of service es)
          = length (latencies_of service es)) as ->
    by (unfold latencies_of; by rewrite length_map).
  pose proof (summarises_track_all (latencies_of service es)) as Hsum.
  unfold tally.
  destruct (inherited service); [by right|].
  destruct (latencies_of service es) as [|l ls] eqn:E; [by left|].
  split; [done|]. split; [done|]. split; [done|].
  destruct Hsum as [-> _]. done.
Qed.

Lemma latency_stats_summarise_responses_witness :
  let m :=
    finish_all
      [ {| forwardedTo := Some "toString"; path := "/health"; status := 200;
           latency := 5 |};
        {| forwardedTo := Some "http://localhost:3001"; path := "/users";
           status := 200; latency := 7 |} ] resetMetrics in
  latencyByService m !! "toString" = None ∧
  ∃ s, latencyByService m !! "http://localhost:3001" = Some s ∧
       summarises [7] s.
Proof.
  intros m. split; [reflexivity|].
  pose proof (latency_stats_summarise_responses
                [ {| forwardedTo := Some "toString"; path := "/health";
                     status := 200; latency := 5 |};
                  {| forwardedTo := Some "http://localhost:3001";
                     path := "/users"; status := 200; latency := 7 |} ]
                "http://localhost:3001") as [_ Hservice].
  fold m in Hservice.
  destruct (latencyByService m !! "http://localhost:3001") as [s|] eqn:E.
  - exists s. split; [done|]. by destruct Hservice as (_ & _ & Hsum & _).
  - by destruct Hservice as [Hnone|Hinherited].
Defined.

(** X27: once a response has finished, [min] of the overall accumulator
    is a number and the total lies between [min] and [max] times the
    count: the mean that [getMetrics] and the Prometheus output derive
    from total and count lies between the reported extremes. *)
Theorem latency_total_between_extremes es :
  es ≠ [] →
  let s := latencyStats (finish_all es resetMetrics) in
  ∃ lo, min s = Some lo ∧ lo ≤ max s ∧
        lo * Z.of_nat (count s) ≤ total s ≤ max s * Z.of_nat (count s).
Proof.
  intros Hes. cbv zeta. rewrite latencyStats_finish_all.
  change (latencyStats resetMetrics) with no_stats.
  destruct (summarises_track_all (map latency es))
    as (Hcount & Htotal & Hmax & _ & _ & Hmin).
  destruct (min (track_all (map latency es) no_stats)) as [lo|].
  - destruct Hmin as [Hin Hlow]. exists lo. split; [done|].
    split; [by apply Hmax|].
    rewrite Hcount, Htotal. apply sum_between.
    intros l Hl. split; [by apply Hlow|by apply Hmax].
  - destruct es; [done|discriminate].
Qed.

Lemma latency_total_between_extremes_witness :
  ∃ lo,
    min (latencyStats (finish_all
           [ {| forwardedTo := None; path := "/users"; status := 200;
                latency := 12 |};
             {| forwardedTo := None; path := "/orders"; status := 503;
                latency := 40 |} ] resetMetrics)) = Some lo ∧
    lo ≤ 40 ∧ lo * 2 ≤ 52 ≤ 40 * 2.
Proof.
  apply (latency_total_between_extremes
           [ {| forwardedTo := None; path := "/users"; status := 200;
                latency := 12 |};
             {| forwardedTo := None; path := "/orders"; status := 503;
                latency := 40 |} ]).
  discriminate.
Defined.

End request_metrics.
